(** * TicketsView: the ticket list screen of the web client

    A shallow embedding of the script block of
    [web/src/views/TicketsView.vue]: the loader [getTickets], the table
    filter [filterData], and the handlers of the create, edit and delete
    flows, over a small model of the JavaScript store.

    - values are primitives or references into a heap of objects and arrays;
    - a handler is a state transformer that ends normally or throws;
    - calls on collaborators (notifications, dialogs, the ticket service) are
      appended to a log, and the callbacks handed to them are kept as
      first-order continuations that a later event runs. *)

From Stdlib Require Import ZArith String Ascii Bool Lia.
From stdpp Require Import base list strings pretty.

Local Open Scope string_scope.
Local Open Scope list_scope.

(** ** Values and the heap *)

(** A JavaScript value: a primitive, or a reference to a heap cell.
    Numbers are the integers the component computes with (row counters and
    array lengths, all far below 2^53), and NaN, which is what adding one to
    undefined gives.  A string is its sequence of code units, one character
    of a Rocq string each. *)
Inductive JsValue : Type :=
| VUndefined
| VNull
| VBool (b : bool)
| VNum (n : Z)
| VNaN
| VStr (s : string)
| VRef (l : nat).

(** A heap cell: a plain object, with its own properties in insertion order,
    or an array. *)
Inductive HeapObj : Type :=
| HObject (props : list (string * JsValue))
| HArray (elems : list JsValue).

(** [TypeError] is the only exception these handlers can raise.  [Stuck]
    is not a JavaScript outcome: it marks a run that left the modelled
    fragment (a reference outside the heap, the conversion of a string or of
    an object to a number, a loop out of fuel). *)
Inductive JsError : Type :=
| TypeError
| Stuck.

Inductive outcome (A : Type) : Type :=
| Normal (a : A)
| Throw (e : JsError).
Arguments Normal {A} a.
Arguments Throw {A} e.

#[global] Instance JsValue_eq_dec : EqDecision JsValue.
Proof. solve_decision. Defined.

#[global] Instance HeapObj_eq_dec : EqDecision HeapObj.
Proof. solve_decision. Defined.

#[global] Instance JsError_eq_dec : EqDecision JsError.
Proof. solve_decision. Defined.

(** ** Collaborators *)

(** What the component asks of its collaborators, in call order.  The
    position of an entry in the log serves as the handle the call returns:
    the dismiss function of a notification, the promise of a service call,
    the dialog object. *)
Inductive Effect : Type :=
| ENotify (opts : list (string * JsValue))   (* $q.notify(opts) *)
| EDismiss (handle : nat)                    (* dismiss() *)
| EList (args : list JsValue)                (* ticketsService.list(...) *)
| EDelete (id : JsValue)                     (* ticketsService.delete(id) *)
| EDialog (id : JsValue).                    (* $q.dialog({... id ...}) *)

(** The closures the component registers, defunctionalised. *)
Inductive Cont : Type :=
| KListThen (dismiss : nat)      (* getTickets: (res) => { ...; dismiss(); } *)
| KDialogOk (props : JsValue)    (* deleteTicket: () => ticketsService.delete(...).then(...) *)
| KDeleteThen.                   (* deleteTicket: () => { getTickets(); } *)

#[global] Instance Effect_eq_dec : EqDecision Effect.
Proof. solve_decision. Defined.

#[global] Instance Cont_eq_dec : EqDecision Cont.
Proof. solve_decision. Defined.

(** The three calls with constant arguments. *)
Definition loading_notice : Effect :=
  ENotify [("spinner", VBool true);
           ("message", VStr "Please wait while loading tickets...")].

Definition list_call : Effect :=
  EList [VNum 0; VNum 100000; VStr "subject"; VBool false; VStr ""].

Definition added_notice : Effect :=
  ENotify [("type", VStr "positive"); ("message", VStr "Ticket added successfully.")].

(** Library functions the component imports: [String.prototype.toLowerCase]
    and Quasar's [date.formatDate]. *)
Class Runtime : Type := {
  toLowerCase : string -> string;
  formatDate : JsValue -> string -> JsValue;
}.

(** ** Component state *)

Record State : Type := mkState {
  heap : list HeapObj;
  ticket : JsValue;                    (* ticket.value *)
  tickets : JsValue;                   (* tickets.value *)
  showaddTicketDialog : bool;
  showUpdateTicketDialog : bool;
  log : list Effect;
  conts : list (nat * Cont);
}.

Definition set_heap (h : list HeapObj) (st : State) : State :=
  mkState h (ticket st) (tickets st) (showaddTicketDialog st)
    (showUpdateTicketDialog st) (log st) (conts st).

Definition set_ticket (v : JsValue) (st : State) : State :=
  mkState (heap st) v (tickets st) (showaddTicketDialog st)
    (showUpdateTicketDialog st) (log st) (conts st).

Definition set_tickets (v : JsValue) (st : State) : State :=
  mkState (heap st) (ticket st) v (showaddTicketDialog st)
    (showUpdateTicketDialog st) (log st) (conts st).

Definition set_showaddTicketDialog (b : bool) (st : State) : State :=
  mkState (heap st) (ticket st) (tickets st) b
    (showUpdateTicketDialog st) (log st) (conts st).

Definition set_showUpdateTicketDialog (b : bool) (st : State) : State :=
  mkState (heap st) (ticket st) (tickets st) (showaddTicketDialog st)
    b (log st) (conts st).

Definition set_log (l : list Effect) (st : State) : State :=
  mkState (heap st) (ticket st) (tickets st) (showaddTicketDialog st)
    (showUpdateTicketDialog st) l (conts st).

Definition set_conts (k : list (nat * Cont)) (st : State) : State :=
  mkState (heap st) (ticket st) (tickets st) (showaddTicketDialog st)
    (showUpdateTicketDialog st) (log st) k.

(** ** The monad of handlers: state that survives an exception *)

Definition M (A : Type) : Type := State -> outcome A * State.

#[global] Instance M_ret : MRet M := fun A a st => (Normal a, st).

#[global] Instance M_bind : MBind M := fun A B f m st =>
  match m st with
  | (Normal a, st') => f a st'
  | (Throw e, st') => (Throw e, st')
  end.

Definition throw {A : Type} (e : JsError) : M A := fun st => (Throw e, st).

Definition modify (f : State -> State) : M unit := fun st => (Normal tt, f st).

Definition gets {A : Type} (f : State -> A) : M A := fun st => (Normal (f st), st).

(** ** Reading the heap *)

Fixpoint lookup_prop (k : string) (ps : list (string * JsValue)) : JsValue :=
  match ps with
  | [] => VUndefined
  | (k', v) :: ps' => if String.eqb k k' then v else lookup_prop k ps'
  end.

(** [v[k]] for a property name [k] that is neither an index nor [length]:
    reading from undefined or null throws, an object yields its property or
    undefined, every other value has no such property. *)
Definition read_prop (h : list HeapObj) (v : JsValue) (k : string) : outcome JsValue :=
  match v with
  | VUndefined | VNull => Throw TypeError
  | VBool _ | VNum _ | VNaN | VStr _ => Normal VUndefined
  | VRef l =>
      match h !! l with
      | Some (HObject ps) => Normal (lookup_prop k ps)
      | Some (HArray _) => Normal VUndefined
      | None => Throw Stuck
      end
  end.

(** [v.length]: an array and a string have their length, a plain object has
    what it holds under that name, a number or a boolean has none; reading
    it from undefined or null throws. *)
Definition read_length (h : list HeapObj) (v : JsValue) : outcome JsValue :=
  match v with
  | VUndefined | VNull => Throw TypeError
  | VBool _ | VNum _ | VNaN => Normal VUndefined
  | VStr s => Normal (VNum (Z.of_nat (String.length s)))
  | VRef l =>
      match h !! l with
      | Some (HArray els) => Normal (VNum (Z.of_nat (length els)))
      | Some (HObject ps) => Normal (lookup_prop "length" ps)
      | None => Throw Stuck
      end
  end.

(** [v[i]] for an index [i]: the element of an array, the character of a
    string, the property of a plain object named by the decimal digits of
    [i]; undefined past the end and where there is no such property. *)
Definition read_index (h : list HeapObj) (v : JsValue) (i : nat) : outcome JsValue :=
  match v with
  | VUndefined | VNull => Throw TypeError
  | VBool _ | VNum _ | VNaN => Normal VUndefined
  | VStr s =>
      Normal (match String.get i s with
              | Some c => VStr (String c EmptyString)
              | None => VUndefined
              end)
  | VRef l =>
      match h !! l with
      | Some (HArray els) => Normal (default VUndefined (els !! i))
      | Some (HObject ps) => Normal (lookup_prop (pretty i) ps)
      | None => Throw Stuck
      end
  end.

(** [i < v] for a number [i] that is an index: undefined and NaN compare
    false with every number, null counts as 0, false as 0 and true as 1.
    Converting a string or an object to a number is outside the fragment. *)
Definition less_than (i : nat) (v : JsValue) : outcome bool :=
  match v with
  | VNum n => Normal (Z.of_nat i <? n)%Z
  | VUndefined | VNaN => Normal false
  | VNull => Normal (Z.of_nat i <? 0)%Z
  | VBool b => Normal (Z.of_nat i <? (if b then 1 else 0))%Z
  | VStr _ | VRef _ => Throw Stuck
  end.

(** [v + 1]: a number is incremented, undefined gives NaN, null counts as 0,
    false as 0 and true as 1, and a string gets the digit appended.
    Converting an object to a primitive is outside the fragment. *)
Definition plus_one (v : JsValue) : outcome JsValue :=
  match v with
  | VNum n => Normal (VNum (n + 1))
  | VUndefined | VNaN => Normal VNaN
  | VNull => Normal (VNum 1)
  | VBool b => Normal (VNum (if b then 2 else 1))
  | VStr s => Normal (VStr (s +:+ "1"))
  | VRef _ => Throw Stuck
  end.

(** How many turns a loop [for (i = 0; i < v; i++)] takes. *)
Definition turns (v : JsValue) : nat :=
  match v with
  | VNum n => Z.to_nat n
  | VBool true => 1
  | _ => 0
  end.

Definition get_prop (v : JsValue) (k : string) : M JsValue :=
  fun st => (read_prop (heap st) v k, st).

Definition get_length (v : JsValue) : M JsValue :=
  fun st => (read_length (heap st) v, st).

Definition get_index (v : JsValue) (i : nat) : M JsValue :=
  fun st => (read_index (heap st) v i, st).

(** An operation on values, which does not look at the state. *)
Definition lift {A : Type} (o : outcome A) : M A := fun st => (o, st).

(** ** Writing the heap *)

(** An object or array literal: a fresh cell at the end of the heap. *)
Definition alloc (o : HeapObj) : M JsValue :=
  fun st => (Normal (VRef (length (heap st))), set_heap (heap st ++ [o]) st).

(** [arr.push(v)]: only an array has the method. *)
Definition array_push (arr v : JsValue) : M unit :=
  fun st =>
    match arr with
    | VRef l =>
        match heap st !! l with
        | Some (HArray els) =>
            (Normal tt, set_heap (<[l := HArray (els ++ [v])]> (heap st)) st)
        | Some (HObject _) => (Throw TypeError, st)
        | None => (Throw Stuck, st)
        end
    | _ => (Throw TypeError, st)
    end.

(** ** Strings *)

(** [s.includes(t)]: [t] occurs in [s] as a contiguous run. *)
Fixpoint includes (s t : string) : bool :=
  String.prefix t s ||
  match s with
  | EmptyString => false
  | String _ s' => includes s' t
  end.

(** Lower case for the letters A to Z, every other character kept: what
    [toLowerCase] does on text made of ASCII characters. *)
Definition ascii_lower (c : ascii) : ascii :=
  let n := nat_of_ascii c in
  if (65 <=? n)%nat && (n <=? 90)%nat then ascii_of_nat (n + 32) else c.

Fixpoint ascii_toLowerCase (s : string) : string :=
  match s with
  | EmptyString => EmptyString
  | String c s' => String (ascii_lower c) (ascii_toLowerCase s')
  end.

(** [t] occurs in [s]. *)
Definition substring (t s : string) : Prop := ∃ a b, s = a +:+ t +:+ b.

(** A value that does not point outside heap [h]. *)
Definition allocated (h : list HeapObj) (v : JsValue) : Prop :=
  match v with
  | VRef l => l < length h
  | _ => True
  end.

(** A heap none of whose cells points outside it. *)
Definition closed (h : list HeapObj) : Prop :=
  Forall (λ o, match o with
               | HObject ps => Forall (λ kv : string * JsValue, allocated h kv.2) ps
               | HArray els => Forall (allocated h) els
               end) h.

(** The [length] of [v], where it has one, is neither a string nor an
    object: comparing it with a number and adding one to it need no
    conversion. *)
Definition plain_length (h : list HeapObj) (v : JsValue) : Prop :=
  match read_length h v with
  | Normal (VStr _) | Normal (VRef _) => False
  | _ => True
  end.

(** The values [v[0]], [v[1]], ... that a loop over the indices below
    [v.length] visits. *)
Definition visited (h : list HeapObj) (v : JsValue) : list JsValue :=
  match read_length h v with
  | Normal len =>
      (λ i, match read_index h v i with
            | Normal r => r
            | Throw _ => VUndefined
            end) <$> seq 0 (turns len)
  | Throw _ => []
  end.

Section Component.

Context `{RT : Runtime}.

(** [v.toLowerCase()]: only a string has the method. *)
Definition call_toLowerCase (v : JsValue) : M string :=
  match v with
  | VStr s => mret (toLowerCase s)
  | _ => throw TypeError
  end.

(** ** filterData *)

(** [for (let i = i0; cond(i); i++) body(i)]. *)
Fixpoint for_loop (fuel : nat) (cond : nat -> M bool) (body : nat -> M unit)
    (i : nat) : M unit :=
  match fuel with
  | O => throw Stuck
  | S fuel' =>
      c ← cond i;
      if c : bool then body i ;; for_loop fuel' cond body (S i) else mret tt
  end.

(** One turn of the loop of [filterData]: the [||] reads the description
    only when the subject does not match. *)
Definition filterData_body (rows filtered : JsValue) (terms : string) (i : nat) : M unit :=
  r ← get_index rows i;
  subject ← get_prop r "subject";
  ls ← call_toLowerCase subject;
  c ← (if includes ls terms then mret true
       else
         r ← get_index rows i;
         description ← get_prop r "description";
         ld ← call_toLowerCase description;
         mret (includes ld terms));
  if c : bool then (r ← get_index rows i; array_push filtered r) else mret tt.

(** [filterData(rows, terms)].  The loop re-reads [rows.length] before every
    turn, as the source does; the length on entry only bounds the number of
    turns. *)
Definition filterData (rows : JsValue) (terms : string) : M JsValue :=
  filtered ← alloc (HArray []);
  let terms := toLowerCase terms in
  n ← get_length rows;
  for_loop (S (turns n))
    (fun i => len ← get_length rows; lift (less_than i len))
    (filterData_body rows filtered terms) 0 ;;
  mret filtered.

(** *** What the loop computes, read off the heap *)

(** The string held by field [k] of row [r], if it holds one. *)
Definition string_field (h : list HeapObj) (r : JsValue) (k : string) : option string :=
  match read_prop h r k with
  | Normal (VStr s) => Some s
  | _ => None
  end.

(** The test of the [if] on one row: [terms] is the lowered query. *)
Definition row_verdict (h : list HeapObj) (terms : string) (r : JsValue) : outcome bool :=
  match read_prop h r "subject" with
  | Normal (VStr s) =>
      if includes (toLowerCase s) terms then Normal true
      else
        match read_prop h r "description" with
        | Normal (VStr d) => Normal (includes (toLowerCase d) terms)
        | Normal _ => Throw TypeError
        | Throw e => Throw e
        end
  | Normal _ => Throw TypeError
  | Throw e => Throw e
  end.

(** The loop over the rows still to visit, [acc] being [filtered] so far. *)
Fixpoint scan (h : list HeapObj) (terms : string) (rs acc : list JsValue)
    : outcome unit * list JsValue :=
  match rs with
  | [] => (Normal tt, acc)
  | r :: rs' =>
      match row_verdict h terms r with
      | Normal true => scan h terms rs' (acc ++ [r])
      | Normal false => scan h terms rs' acc
      | Throw e => (Throw e, acc)
      end
  end.

(** A row with both searched fields held as strings. *)
Definition has_string_fields (h : list HeapObj) (r : JsValue) : Prop :=
  is_Some (string_field h r "subject") ∧ is_Some (string_field h r "description").

(** Whether a row with both fields matches query [q]. *)
Definition row_matches (h : list HeapObj) (q : string) (r : JsValue) : bool :=
  match string_field h r "subject", string_field h r "description" with
  | Some s, Some d =>
      includes (toLowerCase s) (toLowerCase q) || includes (toLowerCase d) (toLowerCase q)
  | _, _ => false
  end.

(** A row on which the test throws: no string subject, or a subject that
    does not match together with no string description. *)
Definition row_throws (h : list HeapObj) (q : string) (r : JsValue) : Prop :=
  string_field h r "subject" = None ∨
  (∃ s, string_field h r "subject" = Some s ∧
        includes (toLowerCase s) (toLowerCase q) = false ∧
        string_field h r "description" = None).

(** ** Calls on collaborators *)

Definition emit (e : Effect) : M nat :=
  fun st => (Normal (length (log st)), set_log (log st ++ [e]) st).

(** [$q.notify(opts)], returning the dismiss function. *)
Definition notify (opts : list (string * JsValue)) : M nat := emit (ENotify opts).

(** [dismiss()]. *)
Definition call_dismiss (handle : nat) : M unit := emit (EDismiss handle) ;; mret tt.

(** [ticketsService.list(...)], returning the promise. *)
Definition ticketsService_list (args : list JsValue) : M nat := emit (EList args).

(** [ticketsService.delete(id)], returning the promise. *)
Definition ticketsService_delete (id : JsValue) : M nat := emit (EDelete id).

(** [$q.dialog({...})] with the confirmation text built around [id]. *)
Definition q_dialog (id : JsValue) : M nat := emit (EDialog id).

(** [promise.then(k)] and [dialog.onOk(k)]. *)
Definition register (handle : nat) (k : Cont) : M unit :=
  modify (fun st => set_conts (conts st ++ [(handle, k)]) st).

(** ** Arrays *)

(** [arr.map(f)], where the callback threads the variables it captures. *)
Fixpoint map_elems {S : Type} (f : S -> JsValue -> M (S * JsValue)) (s : S)
    (els : list JsValue) : M (list JsValue) :=
  match els with
  | [] => mret []
  | x :: xs =>
      '(s', y) ← f s x;
      ys ← map_elems f s' xs;
      mret (y :: ys)
  end.

Definition array_map {S : Type} (f : S -> JsValue -> M (S * JsValue)) (s : S)
    (arr : JsValue) : M JsValue :=
  match arr with
  | VRef l =>
      o ← gets (fun st => heap st !! l);
      match o with
      | Some (HArray els) => ys ← map_elems f s els; alloc (HArray ys)
      | Some (HObject _) => throw TypeError
      | None => throw Stuck
      end
  | _ => throw TypeError
  end.

(** The characters of a string, each a string of its own. *)
Fixpoint chars (s : string) : list JsValue :=
  match s with
  | EmptyString => []
  | String c s' => VStr (String c EmptyString) :: chars s'
  end.

(** [...v] inside an array literal: the elements of an array, the
    characters of a string; no other value can be iterated. *)
Definition spread (v : JsValue) : M (list JsValue) :=
  match v with
  | VRef l =>
      o ← gets (fun st => heap st !! l);
      match o with
      | Some (HArray els) => mret els
      | Some (HObject _) => throw TypeError
      | None => throw Stuck
      end
  | VStr s => mret (chars s)
  | _ => throw TypeError
  end.

(** What [...v] yields, read off the heap. *)
Definition elements (h : list HeapObj) (v : JsValue) : option (list JsValue) :=
  match v with
  | VRef l =>
      match h !! l with
      | Some (HArray els) => Some els
      | _ => None
      end
  | VStr s => Some (chars s)
  | _ => None
  end.

(** ** The loader *)

Definition date_mask : string := "YYYY-MM-DDTHH:mm:ssZ".

(** The row literal shared by [getTickets] and [updateTicketList]; [num] is
    the value of the ["#"] field, evaluated first. *)
Definition ticket_row (num : JsValue) (data : JsValue) : M JsValue :=
  id ← get_prop data "id";
  subject ← get_prop data "subject";
  description_text ← get_prop data "description_text";
  status ← get_prop data "status";
  created_at ← get_prop data "created_at";
  updated_at ← get_prop data "updated_at";
  comments ← get_prop data "comments";
  alloc (HObject [("#", num);
                  ("id", id);
                  ("subject", subject);
                  ("description", description_text);
                  ("status", status);
                  ("created", formatDate created_at date_mask);
                  ("updated", formatDate updated_at date_mask);
                  ("comments", comments)]).

(** *** What the row literal holds, read off the heap *)

(** A reference to a plain object. *)
Definition is_object (h : list HeapObj) (v : JsValue) : Prop :=
  ∃ l ps, v = VRef l ∧ h !! l = Some (HObject ps).

(** The value of [v.k] where the read does not throw. *)
Definition field (h : list HeapObj) (v : JsValue) (k : string) : JsValue :=
  match read_prop h v k with
  | Normal x => x
  | Throw _ => VUndefined
  end.

(** The properties of the row that [ticket_row (VNum num) data] allocates. *)
Definition row_literal (h : list HeapObj) (num : Z) (data : JsValue)
    : list (string * JsValue) :=
  [("#", VNum num);
   ("id", field h data "id");
   ("subject", field h data "subject");
   ("description", field h data "description_text");
   ("status", field h data "status");
   ("created", formatDate (field h data "created_at") date_mask);
   ("updated", formatDate (field h data "updated_at") date_mask);
   ("comments", field h data "comments")].

(** Row [row] of heap [h'] is the display row of record [data] of heap [h],
    numbered [num]. *)
Definition mapped_from (h' : list HeapObj) (row : JsValue)
    (h : list HeapObj) (num : Z) (data : JsValue) : Prop :=
  read_prop h' row "#" = Normal (VNum num) ∧
  read_prop h' row "id" = read_prop h data "id" ∧
  read_prop h' row "subject" = read_prop h data "subject" ∧
  read_prop h' row "description" = read_prop h data "description_text" ∧
  read_prop h' row "status" = read_prop h data "status" ∧
  read_prop h' row "created" = Normal (formatDate (field h data "created_at") date_mask) ∧
  read_prop h' row "updated" = Normal (formatDate (field h data "updated_at") date_mask) ∧
  read_prop h' row "comments" = read_prop h data "comments".

Definition getTickets : M unit :=
  dismiss ← notify [("spinner", VBool true);
                    ("message", VStr "Please wait while loading tickets...")];
  p ← ticketsService_list [VNum 0; VNum 100000; VStr "subject"; VBool false; VStr ""];
  register p (KListThen dismiss).

(** The callback of [getTickets]: [counter] starts at 1 and is bumped by
    every [counter++]. *)
Definition getTickets_then (dismiss : nat) (res : JsValue) : M unit :=
  d ← get_prop res "data";
  dd ← get_prop d "data";
  rows ← array_map
           (fun counter data =>
              row ← ticket_row (VNum counter) data; mret ((counter + 1)%Z, row))
           1%Z dd;
  modify (set_tickets rows) ;;
  call_dismiss dismiss.

(** ** The editor flow *)

Definition addTicket : M unit := modify (set_showaddTicketDialog true).

Definition editTicket (event props : JsValue) : M unit :=
  id ← get_prop props "id";
  subject ← get_prop props "subject";
  description ← get_prop props "description";
  status ← get_prop props "status";
  createdAt ← get_prop props "createdAt";
  updatedAt ← get_prop props "updatedAt";
  comments ← get_prop props "comments";
  o ← alloc (HObject [("id", id);
                      ("subject", subject);
                      ("description", description);
                      ("status", status);
                      ("created", formatDate createdAt date_mask);
                      ("updated", formatDate updatedAt date_mask);
                      ("comments", comments)]);
  modify (set_ticket o) ;;
  modify (set_showUpdateTicketDialog true).

Definition deleteTicket (props : JsValue) : M unit :=
  row ← get_prop props "row";
  id ← get_prop row "id";
  d ← q_dialog id;
  register d (KDialogOk props).

(** The [onOk] callback of [deleteTicket]. *)
Definition deleteTicket_onOk (props : JsValue) : M unit :=
  row ← get_prop props "row";
  id ← get_prop row "id";
  p ← ticketsService_delete id;
  register p KDeleteThen.

(** The [then] callback of the delete call. *)
Definition deleteTicket_then : M unit := getTickets.

Definition ticketUpdated : M unit :=
  modify (set_showUpdateTicketDialog false) ;;
  getTickets.

Definition updateTicketList (data : JsValue) : M unit :=
  modify (set_showaddTicketDialog false) ;;
  ticketdata ← alloc (HArray []);
  d ← get_prop data "data";
  array_push ticketdata d ;;
  ticketdata ← array_map
                 (fun (_ : unit) data =>
                    ts ← gets tickets;
                    len ← get_length ts;
                    num ← lift (plus_one len);
                    row ← ticket_row num data;
                    mret (tt, row))
                 tt ticketdata;
  ts ← gets tickets;
  old ← spread ts;
  new ← spread ticketdata;
  arr ← alloc (HArray (old ++ new));
  modify (set_tickets arr) ;;
  notify [("type", VStr "positive"); ("message", VStr "Ticket added successfully.")] ;;
  mret tt.

(** ** Events *)

(** How a pending call or dialog ends. *)
Inductive Settlement : Type :=
| Fulfilled (v : JsValue)
| Rejected
| DialogOk
| DialogCancel.

Inductive Event : Type :=
| EvAddTicket                             (* click on the add button *)
| EvRowClick (evt row : JsValue)          (* row-click of the table *)
| EvDeleteTicket (props : JsValue)
| EvCreateUpdated (data : JsValue)        (* "updated" of the add panel *)
| EvEditUpdated                           (* "updated" of the edit panel *)
| EvSettle (handle : nat) (s : Settlement)
| EvShowAdd (b : bool)                    (* v-model of the add dialog *)
| EvShowUpdate (b : bool)                 (* v-model of the edit dialog *)
| EvTicketModel (v : JsValue)             (* v-model of the edit panel *)
| EvAlloc (o : HeapObj).                  (* other code creates an object *)

Fixpoint find_cont (handle : nat) (ks : list (nat * Cont)) : option Cont :=
  match ks with
  | [] => None
  | (h, k) :: ks' => if Nat.eqb h handle then Some k else find_cont handle ks'
  end.

Fixpoint remove_cont (handle : nat) (ks : list (nat * Cont)) : list (nat * Cont) :=
  match ks with
  | [] => []
  | (h, k) :: ks' =>
      if Nat.eqb h handle then remove_cont handle ks' else (h, k) :: remove_cont handle ks'
  end.

(** A settled promise runs its fulfilment callback, if that is how it
    settled; none of the calls has a rejection callback.  A dialog runs its
    [onOk] callback when accepted. *)
Definition run_cont (k : Cont) (s : Settlement) : M unit :=
  match k, s with
  | KListThen dismiss, Fulfilled res => getTickets_then dismiss res
  | KDialogOk props, DialogOk => deleteTicket_onOk props
  | KDeleteThen, Fulfilled _ => deleteTicket_then
  | _, _ => mret tt
  end.

Definition settle (handle : nat) (s : Settlement) : M unit :=
  ks ← gets conts;
  match find_cont handle ks with
  | Some k => modify (set_conts (remove_cont handle ks)) ;; run_cont k s
  | None => mret tt
  end.

Definition handle_event (ev : Event) : M unit :=
  match ev with
  | EvAddTicket => addTicket
  | EvRowClick evt row => editTicket evt row
  | EvDeleteTicket props => deleteTicket props
  | EvCreateUpdated data => updateTicketList data
  | EvEditUpdated => ticketUpdated
  | EvSettle handle s => settle handle s
  | EvShowAdd b => modify (set_showaddTicketDialog b)
  | EvShowUpdate b => modify (set_showUpdateTicketDialog b)
  | EvTicketModel v => modify (set_ticket v)
  | EvAlloc o => alloc o ;; mret tt
  end.

(** An exception ends the handler; the state it reached stays. *)
Definition step (st : State) (ev : Event) : State := snd (handle_event ev st).

Definition run (evs : list Event) (st : State) : State := foldl step st evs.

(** [setup()]: the two refs, then the first load. *)
Definition setup : M unit :=
  t ← alloc (HObject []);
  modify (set_ticket t) ;;
  ts ← alloc (HArray []);
  modify (set_tickets ts) ;;
  getTickets.

Definition blank : State := mkState [] VUndefined VUndefined false false [] [].

Definition init : State := snd (setup blank).

End Component.

(** ** The runtime of the examples *)

(** A stand-in for Quasar's [date.formatDate] on a host whose time zone is
    UTC, for the time stamps the backend sends and the mask the component
    passes.  [formatDate] builds a [Date] from the value and replaces every
    token of the mask by the field it names; the token [Z] is the offset of
    the host's zone from UTC, written [+00:00] on such a host. *)

(** The fields of a point in time, as the getters of a [Date] return them
    on that host. *)
Record DateFields : Type := mkDate {
  year : nat;
  month : nat;
  day : nat;
  hours : nat;
  minutes : nat;
  seconds : nat;
}.

Definition digit (c : ascii) : option nat :=
  let n := nat_of_ascii c in
  if (48 <=? n)%nat && (n <=? 57)%nat then Some (n - 48) else None.

(** The number written by the [n] decimal digits of [s] from position [i]
    on, after the digits in [acc]. *)
Fixpoint digits (n i : nat) (s : string) (acc : nat) : option nat :=
  match n with
  | O => Some acc
  | S n' =>
      match String.get i s with
      | Some c =>
          match digit c with
          | Some d => digits n' (S i) s (10 * acc + d)
          | None => None
          end
      | None => None
      end
  end.

Definition char_at (i : nat) (c : ascii) (s : string) : bool :=
  match String.get i s with
  | Some c' => Ascii.eqb c c'
  | None => false
  end.

Definition leap_year (y : nat) : bool :=
  (y mod 4 =? 0)%nat && (negb (y mod 100 =? 0)%nat || (y mod 400 =? 0)%nat).

Definition days_in_month (y m : nat) : nat :=
  match m with
  | 2 => if leap_year y then 29 else 28
  | 4 | 6 | 9 | 11 => 30
  | _ => 31
  end.

(** A time stamp [YYYY-MM-DDTHH:mm:ssZ] in UTC, of a day that exists: the
    format of [created_at] and [updated_at]. *)
Definition parse_stamp (s : string) : option DateFields :=
  if (String.length s =? 20)%nat
     && char_at 4 "-" s && char_at 7 "-" s && char_at 10 "T" s
     && char_at 13 ":" s && char_at 16 ":" s && char_at 19 "Z" s
  then
    match digits 4 0 s 0, digits 2 5 s 0, digits 2 8 s 0,
          digits 2 11 s 0, digits 2 14 s 0, digits 2 17 s 0 with
    | Some y, Some mo, Some d, Some h, Some mi, Some se =>
        if (1 <=? mo)%nat && (mo <=? 12)%nat
           && (1 <=? d)%nat && (d <=? days_in_month y mo)%nat
           && (h <=? 23)%nat && (mi <=? 59)%nat && (se <=? 59)%nat
        then Some (mkDate y mo d h mi se)
        else None
    | _, _, _, _, _, _ => None
    end
  else None.

(** A field on two digits. *)
Definition two_digits (n : nat) : string :=
  if (n <? 10)%nat then "0" +:+ pretty n else pretty n.

Fixpoint skip (n : nat) (s : string) : string :=
  match n, s with
  | S n', String _ s' => skip n' s'
  | _, _ => s
  end.

(** The mask with its tokens replaced, for the tokens [YYYY], [MM], [DD],
    [HH], [mm], [ss] and [Z]; every other character stands for itself. *)
Fixpoint render (fuel : nat) (d : DateFields) (mask : string) : string :=
  match fuel with
  | O => EmptyString
  | S fuel' =>
      let rest n := render fuel' d (skip n mask) in
      if String.prefix "YYYY" mask then pretty (year d) +:+ rest 4
      else if String.prefix "MM" mask then two_digits (month d) +:+ rest 2
      else if String.prefix "DD" mask then two_digits (day d) +:+ rest 2
      else if String.prefix "HH" mask then two_digits (hours d) +:+ rest 2
      else if String.prefix "mm" mask then two_digits (minutes d) +:+ rest 2
      else if String.prefix "ss" mask then two_digits (seconds d) +:+ rest 2
      else if String.prefix "Z" mask then "+00:00" +:+ rest 1
      else
        match mask with
        | EmptyString => EmptyString
        | String c mask' => String c (render fuel' d mask')
        end
  end.

(** [formatDate] returns undefined for a value that is not a date, such as
    undefined, null or the empty string.  Strings in the other formats that
    [Date] reads, numbers, [true] and objects are not covered: the stand-in
    answers undefined for them as well. *)
Definition utc_formatDate (v : JsValue) (mask : string) : JsValue :=
  match v with
  | VStr s =>
      match parse_stamp s with
      | Some d => VStr (render (S (String.length mask)) d mask)
      | None => VUndefined
      end
  | _ => VUndefined
  end.

(** The runtime the examples run on: lower case for ASCII letters, and
    dates formatted as on a host in UTC. *)
#[local] Instance ascii_runtime : Runtime := {|
  toLowerCase := ascii_toLowerCase;
  formatDate := utc_formatDate;
|}.

(** ** What a handler may do to the log and to the pending callbacks *)

(** A computation that makes no call and registers nothing. *)
Definition quiet {A : Type} (m : M A) : Prop :=
  ∀ st, log (snd (m st)) = log st ∧ conts (snd (m st)) = conts st.

(** A computation that registers nothing and makes at most the call [e]. *)
Definition calls_at_most {A : Type} (e : Effect) (m : M A) : Prop :=
  ∀ st, conts (snd (m st)) = conts st ∧
        (log (snd (m st)) = log st ∨ log (snd (m st)) = log st ++ [e]).

(** The calls [extra] and registrations [new] that handling event [ev] in
    state [st] can add, [base] being the callbacks kept from before. *)
Inductive footprint (st : State) :
    Event → list (nat * Cont) → list Effect → list (nat * Cont) → Prop :=
| fp_quiet ev :
    footprint st ev (conts st) [] []
| fp_dropped h s :
    footprint st (EvSettle h s) (remove_cont h (conts st)) [] []
| fp_reload_edit :
    footprint st EvEditUpdated (conts st)
      [loading_notice; list_call]
      [(S (length (log st)), KListThen (length (log st)))]
| fp_reload_delete h v :
    find_cont h (conts st) = Some KDeleteThen →
    footprint st (EvSettle h (Fulfilled v)) (remove_cont h (conts st))
      [loading_notice; list_call]
      [(S (length (log st)), KListThen (length (log st)))]
| fp_dismiss h v m :
    find_cont h (conts st) = Some (KListThen m) →
    footprint st (EvSettle h (Fulfilled v)) (remove_cont h (conts st)) [EDismiss m] []
| fp_added data :
    footprint st (EvCreateUpdated data) (conts st) [added_notice] []
| fp_dialog props id :
    footprint st (EvDeleteTicket props) (conts st)
      [EDialog id] [(length (log st), KDialogOk props)]
| fp_delete h props id :
    find_cont h (conts st) = Some (KDialogOk props) →
    footprint st (EvSettle h DialogOk) (remove_cont h (conts st))
      [EDelete id] [(length (log st), KDeleteThen)].

(** The ids the remote delete was called with, oldest first. *)
Definition deletes (l : list Effect) : list JsValue :=
  omap (λ e, match e with EDelete id => Some id | _ => None end) l.

(** How many confirmation dialogs were accepted in a run of events. *)
Definition is_accept (ev : Event) : bool :=
  match ev with
  | EvSettle _ DialogOk => true
  | _ => false
  end.

Definition accepted (evs : list Event) : nat :=
  length (List.filter is_accept evs).

(** What holds of the pending callbacks in every state the component
    reaches: a callback hangs on a call already made; the callback of a load
    hangs on the list call made right after its loading notification, which
    has not been dismissed; and only notifications already shown have been
    dismissed. *)
Definition pending_ok (st : State) : Prop :=
  Forall (λ hk : nat * Cont,
            hk.1 < length (log st) ∧
            ∀ m, hk.2 = KListThen m →
                 hk.1 = S m ∧ log st !! m = Some loading_notice ∧
                 log st !! (S m) = Some list_call ∧ EDismiss m ∉ log st)
         (conts st) ∧
  (∀ m, EDismiss m ∈ log st → m < length (log st)).

(** Notification [n] has been shown, has not been dismissed, and no pending
    callback holds its dismiss function. *)
Definition orphaned (n : nat) (st : State) : Prop :=
  n < length (log st) ∧ (EDismiss n ∉ log st) ∧
  Forall (λ hk : nat * Cont, hk.2 ≠ KListThen n) (conts st).

(** ** The row list in the states the component reaches *)

(** Cells [x] are row objects numbered [c], [c + 1], ... in their ["#"]
    field. *)
Definition numbered_cells (c : Z) (x : list HeapObj) : Prop :=
  ∀ i o, x !! i = Some o →
         ∃ ps, o = HObject ps ∧ lookup_prop "#" ps = VNum (c + Z.of_nat i).

(** Value [v] is an array of heap [h] whose element [i] reads [i + 1] in its
    ["#"] field. *)
Definition numbered (h : list HeapObj) (v : JsValue) : Prop :=
  ∃ t rows,
    v = VRef t ∧ h !! t = Some (HArray rows) ∧
    ∀ i row, rows !! i = Some row →
             read_prop h row "#" = Normal (VNum (Z.of_nat i + 1)).

(** What handling event [ev] can do to the heap, the row list, the log and
    the pending callbacks, from state [st] to state [st']. *)
Inductive transition (st st' : State) : Event → Prop :=
| tr_grow ev x :
    heap st' = heap st ++ x → tickets st' = tickets st →
    log st' = log st → conts st' = conts st →
    transition st st' ev
| tr_drop h s x :
    is_Some (find_cont h (conts st)) →
    heap st' = heap st ++ x → tickets st' = tickets st →
    log st' = log st → conts st' = remove_cont h (conts st) →
    transition st st' (EvSettle h s)
| tr_load h v m x :
    find_cont h (conts st) = Some (KListThen m) →
    numbered_cells 1 x →
    heap st' = heap st ++ x ++ [HArray (VRef <$> seq (length (heap st)) (length x))] →
    tickets st' = VRef (length (heap st) + length x) →
    log st' = log st ++ [EDismiss m] → conts st' = remove_cont h (conts st) →
    transition st st' (EvSettle h (Fulfilled v))
| tr_create data rec old ps :
    elements (heap st ++ [HArray [rec]]) (tickets st) = Some old →
    lookup_prop "#" ps = VNum (Z.of_nat (length old) + 1) →
    heap st' = heap st ++ [HArray [rec]; HObject ps;
                           HArray [VRef (S (length (heap st)))];
                           HArray (old ++ [VRef (S (length (heap st)))])] →
    tickets st' = VRef (length (heap st) + 3) →
    log st' = log st ++ [added_notice] → conts st' = conts st →
    transition st st' (EvCreateUpdated data)
| tr_dialog props row id :
    read_prop (heap st) props "row" = Normal row →
    read_prop (heap st) row "id" = Normal id →
    heap st' = heap st → tickets st' = tickets st →
    log st' = log st ++ [EDialog id] →
    conts st' = conts st ++ [(length (log st), KDialogOk props)] →
    transition st st' (EvDeleteTicket props)
| tr_delete h props row id :
    find_cont h (conts st) = Some (KDialogOk props) →
    read_prop (heap st) props "row" = Normal row →
    read_prop (heap st) row "id" = Normal id →
    heap st' = heap st → tickets st' = tickets st →
    log st' = log st ++ [EDelete id] →
    conts st' = remove_cont h (conts st) ++ [(length (log st), KDeleteThen)] →
    transition st st' (EvSettle h DialogOk)
| tr_reload_edit :
    heap st' = heap st → tickets st' = tickets st →
    log st' = log st ++ [loading_notice; list_call] →
    conts st' = conts st ++ [(S (length (log st)), KListThen (length (log st)))] →
    transition st st' EvEditUpdated
| tr_reload_delete h v :
    find_cont h (conts st) = Some KDeleteThen →
    heap st' = heap st → tickets st' = tickets st →
    log st' = log st ++ [loading_notice; list_call] →
    conts st' = remove_cont h (conts st)
                ++ [(S (length (log st)), KListThen (length (log st)))] →
    transition st st' (EvSettle h (Fulfilled v)).

(** ** The log in the states the component reaches *)

(** The handles the dismiss function was called on, oldest first. *)
Definition dismissals (l : list Effect) : list nat :=
  omap (λ e, match e with EDismiss m => Some m | _ => None end) l.

(** Every pending confirmation dialog shows the id its row holds. *)
Definition dialogs_ok (st : State) : Prop :=
  ∀ h props, (h, KDialogOk props) ∈ conts st →
    ∃ row id,
      read_prop (heap st) props "row" = Normal row ∧
      read_prop (heap st) row "id" = Normal id ∧
      log st !! h = Some (EDialog id).

(** Every remote delete comes after a confirmation dialog that showed the
    id it is called with. *)
Definition deletes_confirmed (l : list Effect) : Prop :=
  ∀ i id, l !! i = Some (EDelete id) →
          ∃ j, j < i ∧ l !! j = Some (EDialog id).

(** Every list call asks for the same page and comes right after a loading
    notification. *)
Definition loads_announced (l : list Effect) : Prop :=
  ∀ i args, l !! i = Some (EList args) →
            EList args = list_call ∧ ∃ j, i = S j ∧ l !! j = Some loading_notice.

Definition is_list (e : Effect) : bool :=
  match e with EList _ => true | _ => false end.

Definition is_added_notice (e : Effect) : bool := bool_decide (e = added_notice).

(** The events that start a load: the "updated" of the edit panel and a
    fulfilled call. *)
Definition is_reload_event (ev : Event) : bool :=
  match ev with
  | EvEditUpdated | EvSettle _ (Fulfilled _) => true
  | _ => false
  end.

Definition is_create_event (ev : Event) : bool :=
  match ev with EvCreateUpdated _ => true | _ => false end.

Definition count {A : Type} (p : A → bool) (l : list A) : nat :=
  length (List.filter p l).

(** A backend record the filter can search once it is mapped: its
    [subject] and [description_text] are strings. *)
Definition searchable_record (h : list HeapObj) (d : JsValue) : Prop :=
  is_Some (string_field h d "subject") ∧ is_Some (string_field h d "description_text").

(** ** Sample data *)

(** Three mapped rows and the array that holds them. *)
Definition sample_rows : list HeapObj :=
  [HObject [("#", VNum 1); ("id", VStr "t1"); ("subject", VStr "Login issue");
            ("description", VStr "Cannot log in"); ("status", VStr "open");
            ("created", VStr "2023-01-01T00:00:00+00:00");
            ("updated", VStr "2023-01-01T00:00:00+00:00"); ("comments", VNull)];
   HObject [("#", VNum 2); ("id", VStr "t2"); ("subject", VStr "Invoice");
            ("description", VStr "Wrong total on the LOGIN page"); ("status", VStr "closed");
            ("created", VStr "2023-02-01T00:00:00+00:00");
            ("updated", VStr "2023-02-02T00:00:00+00:00"); ("comments", VNull)];
   HObject [("#", VNum 3); ("id", VStr "t3"); ("subject", VStr "Export");
            ("description", VStr "CSV is empty"); ("status", VStr "open");
            ("created", VStr "2023-03-01T00:00:00+00:00");
            ("updated", VStr "2023-03-01T00:00:00+00:00"); ("comments", VNull)];
   HArray [VRef 0; VRef 1; VRef 2]].

Definition sample_state : State :=
  mkState sample_rows VUndefined (VRef 3) false false [] [].

(** The one-row table of the case-insensitivity examples: a row with a
    subject and no description. *)
Definition foo_state : State :=
  mkState [HObject [("subject", VStr "Foo")]; HArray [VRef 0]]
    VUndefined (VRef 1) false false [] [].

(** The backend record of the worked example, with its empty comment list,
    and the response that wraps it: [{data: {data: [record]}}]. *)
Definition worked_record : HeapObj :=
  HObject [("id", VStr "t1"); ("subject", VStr "Login issue");
           ("description_text", VStr "Cannot log in"); ("status", VStr "open");
           ("created_at", VStr "2023-01-01T00:00:00Z");
           ("updated_at", VStr "2023-01-01T00:00:00Z"); ("comments", VRef 2)].

Definition worked_heap : list HeapObj :=
  [HObject []; HArray [];                  (* the refs of setup *)
   HArray []; worked_record;               (* the comment list, the record *)
   HArray [VRef 3];
   HObject [("data", VRef 4)];
   HObject [("data", VRef 5)]].

(** The component after [setup], with the response of the first load
    decoded into the heap and the load still pending. *)
Definition worked_state : State := set_heap worked_heap init.

(** The component once that first load is fulfilled. *)
Definition loaded_state : State :=
  step worked_state (EvSettle 1 (Fulfilled (VRef 6))).

(** The sample table with the event of the add panel decoded into the heap:
    [{data: record}]. *)
Definition create_state : State :=
  set_heap
    (sample_rows ++
       [HObject [("id", VStr "t9"); ("subject", VStr "New printer");
                 ("description_text", VStr "Needs toner"); ("status", VStr "open");
                 ("created_at", VStr "2023-04-01T00:00:00Z");
                 ("updated_at", VStr "2023-04-01T00:00:00Z"); ("comments", VNull)];
        HObject [("data", VRef 4)]])
    sample_state.

(** The component after the first load, then with the cell props of the
    loaded row, [{row: row}], in the heap. *)
Definition delete_events : list Event :=
  [EvAlloc (HArray []); EvAlloc worked_record; EvAlloc (HArray [VRef 3]);
   EvAlloc (HObject [("data", VRef 4)]); EvAlloc (HObject [("data", VRef 5)]);
   EvSettle 1 (Fulfilled (VRef 6));
   EvAlloc (HObject [("row", VRef 7)])].

Definition delete_state : State := run delete_events init.

(** * Proofs *)

(** ** Strings *)

Lemma prefix_app (t s : string) : String.prefix t (t +:+ s) = true.
Proof.
  induction t as [|c t IH]; simpl.
  - by destruct s.
  - destruct (ascii_dec c c); [done | congruence].
Qed.

Lemma prefix_split (t s : string) : String.prefix t s = true → ∃ b, s = t +:+ b.
Proof.
  revert s. induction t as [|c t IH]; intros s Hp.
  - by exists s.
  - destruct s as [|c' s]; simpl in Hp; [done |].
    destruct (ascii_dec c c') as [-> | ]; [| done].
    destruct (IH _ Hp) as [b ->]. by exists b.
Qed.

Lemma includes_prefix (s t : string) : String.prefix t s = true → includes s t = true.
Proof. destruct s; cbn [includes]; by intros ->. Qed.

Lemma includes_spec (s t : string) : includes s t = true ↔ substring t s.
Proof.
  split.
  - induction s as [|c s IH]; cbn [includes]; intros Hi.
    + rewrite orb_false_r in Hi. destruct (prefix_split _ _ Hi) as [b ->].
      by exists EmptyString, b.
    + apply orb_true_iff in Hi as [Hp | Hi].
      * destruct (prefix_split _ _ Hp) as [b ->]. by exists EmptyString, b.
      * destruct (IH Hi) as (a & b & ->). by exists (String c a), b.
  - intros (a & b & ->). induction a as [|c a IH].
    + change ("" +:+ t +:+ b) with (t +:+ b). apply includes_prefix, prefix_app.
    + change (String c a +:+ t +:+ b) with (String c (a +:+ t +:+ b)).
      cbn [includes]. rewrite IH. apply orb_true_r.
Qed.

Lemma includes_empty (s : string) : includes s EmptyString = true.
Proof. by destruct s. Qed.

(** ** The monad *)

Ltac munfold :=
  unfold mbind, mret, M_bind, M_ret, throw, modify, gets,
    get_prop, get_length, get_index, alloc, emit.

Lemma bind_eq {A B : Type} (m : M A) (f : A → M B) (st : State) :
  (m ≫= f) st
  = match m st with
    | (Normal a, st') => f a st'
    | (Throw e, st') => (Throw e, st')
    end.
Proof. done. Qed.

Lemma ret_eq {A : Type} (a : A) (st : State) : (mret a : M A) st = (Normal a, st).
Proof. done. Qed.

(** Bring a state to constructor form, with the heap as one append. *)
Ltac norm_state :=
  unfold set_heap, set_ticket, set_tickets, set_showaddTicketDialog,
    set_showUpdateTicketDialog, set_log, set_conts;
  cbn [heap ticket tickets showaddTicketDialog showUpdateTicketDialog log conts];
  rewrite <- ?app_assoc, ?length_app; cbn [app length];
  rewrite ?Nat.add_1_r.

Lemma set_heap_id (st : State) : set_heap (heap st) st = st.
Proof. by destruct st. Qed.

Lemma set_heap_twice (h h' : list HeapObj) (st : State) :
  set_heap h (set_heap h' st) = set_heap h st.
Proof. done. Qed.

(** ** Reads do not depend on cells allocated later *)

Lemma read_prop_app (h x : list HeapObj) (v : JsValue) (k : string) :
  allocated h v → read_prop (h ++ x) v k = read_prop h v k.
Proof.
  destruct v; simpl; try done. intros Hl. by rewrite lookup_app_l.
Qed.

Lemma read_length_app (h x : list HeapObj) (v : JsValue) :
  allocated h v → read_length (h ++ x) v = read_length h v.
Proof.
  destruct v; simpl; try done. intros Hl. by rewrite lookup_app_l.
Qed.

Lemma read_index_app (h x : list HeapObj) (v : JsValue) (i : nat) :
  allocated h v → read_index (h ++ x) v i = read_index h v i.
Proof.
  destruct v; simpl; try done. intros Hl. by rewrite lookup_app_l.
Qed.

(** ** Heap primitives *)

Lemma array_push_last (h : list HeapObj) (els : list JsValue) (v : JsValue) (st : State) :
  heap st = h ++ [HArray els] →
  array_push (VRef (length h)) v st = (Normal tt, set_heap (h ++ [HArray (els ++ [v])]) st).
Proof.
  intros Hh. unfold array_push. rewrite Hh, list_lookup_middle by done.
  by rewrite insert_app_r_alt, Nat.sub_diag by done.
Qed.

Lemma spread_array (l : nat) (els : list JsValue) (st : State) :
  heap st !! l = Some (HArray els) → spread (VRef l) st = (Normal els, st).
Proof. intros Hl. unfold spread, gets. by rewrite bind_eq, Hl. Qed.

Lemma get_length_array (l : nat) (els : list JsValue) (st : State) :
  heap st !! l = Some (HArray els) →
  get_length (VRef l) st = (Normal (VNum (Z.of_nat (length els))), st).
Proof. intros Hl. unfold get_length. simpl. by rewrite Hl. Qed.

(** ** The loop test *)

Lemma less_than_length (i n : nat) :
  less_than i (VNum (Z.of_nat n)) = Normal (i <? n)%nat.
Proof.
  cbn [less_than]. f_equal.
  destruct (Nat.ltb_spec i n); [apply Z.ltb_lt | apply Z.ltb_ge]; lia.
Qed.

Lemma less_than_turns (i : nat) (len : JsValue) :
  match len with VStr _ | VRef _ => False | _ => True end →
  less_than i len = Normal (i <? turns len)%nat.
Proof.
  destruct len as [| | [|] | n | | s | l]; cbn [less_than turns]; try done; intros _; f_equal;
    match goal with
    | |- _ = (?a <? ?b)%nat =>
        destruct (Nat.ltb_spec a b); [apply Z.ltb_lt | apply Z.ltb_ge]; lia
    end.
Qed.

Section FilterProofs.

Context `{RT : Runtime}.

Lemma row_verdict_app (h x : list HeapObj) (terms : string) (r : JsValue) :
  allocated h r → row_verdict (h ++ x) terms r = row_verdict h terms r.
Proof. intros Hr. unfold row_verdict. by rewrite !read_prop_app. Qed.

(** One turn of the loop on the value [r] found at index [i]: the verdict
    of the test decides, and only the array being filled can change. *)
Lemma filterData_body_spec (h0 : list HeapObj) (rows : JsValue) (i : nat)
    (acc : list JsValue) (terms : string) (r : JsValue) (st : State) :
  allocated h0 rows →
  read_index h0 rows i = Normal r →
  allocated h0 r →
  heap st = h0 ++ [HArray acc] →
  filterData_body rows (VRef (length h0)) terms i st
  = match row_verdict h0 terms r with
    | Normal true => (Normal tt, set_heap (h0 ++ [HArray (acc ++ [r])]) st)
    | Normal false => (Normal tt, st)
    | Throw e => (Throw e, st)
    end.
Proof.
  intros Hrows Hi Hr Hh.
  assert (Hget : get_index rows i st = (Normal r, st)).
  { unfold get_index. by rewrite Hh, read_index_app, Hi. }
  assert (Hprop : ∀ k, get_prop r k st = (read_prop h0 r k, st)).
  { intros k. unfold get_prop. by rewrite Hh, read_prop_app. }
  assert (Hpush : (r' ← get_index rows i; array_push (VRef (length h0)) r') st
                  = (Normal tt, set_heap (h0 ++ [HArray (acc ++ [r])]) st)).
  { by rewrite bind_eq, Hget, (array_push_last h0 acc r st Hh). }
  unfold filterData_body, row_verdict.
  rewrite bind_eq, Hget, bind_eq, Hprop.
  destruct (read_prop h0 r "subject") as [[| | | | |s|]|e]; try done.
  rewrite bind_eq. cbn [call_toLowerCase]. rewrite ret_eq, bind_eq.
  destruct (includes (toLowerCase s) terms) eqn:Es.
  { by rewrite ret_eq, Hpush. }
  rewrite bind_eq, Hget, bind_eq, Hprop.
  destruct (read_prop h0 r "description") as [[| | | | |d|]|e]; try done.
  rewrite bind_eq. cbn [call_toLowerCase]. rewrite ret_eq, ret_eq.
  destruct (includes (toLowerCase d) terms) eqn:Ed; [by rewrite Hpush | done].
Qed.

Lemma loop_cond_spec (h0 x : list HeapObj) (rows len : JsValue) (i : nat) (st : State) :
  allocated h0 rows →
  read_length h0 rows = Normal len →
  heap st = h0 ++ x →
  (len ← get_length rows; lift (less_than i len)) st = (less_than i len, st).
Proof.
  intros Hrows Hlen Hh. rewrite bind_eq. unfold get_length.
  by rewrite Hh, read_length_app, Hlen.
Qed.

(** The loop of [filterData] over the values [items] found at the indices
    below the length, started at index [length pre] with [acc] pushed so far:
    it ends as [scan] says and touches no cell but the array it fills. *)
Lemma for_loop_scan (h0 : list HeapObj) (rows len : JsValue) (items : list JsValue)
    (terms : string) :
  allocated h0 rows →
  read_length h0 rows = Normal len →
  (∀ i, less_than i len = Normal (i <? length items)%nat) →
  (∀ i r, items !! i = Some r → read_index h0 rows i = Normal r) →
  Forall (allocated h0) items →
  ∀ (rest pre acc : list JsValue) (fuel : nat) (st : State),
    items = pre ++ rest →
    heap st = h0 ++ [HArray acc] →
    length rest < fuel →
    for_loop fuel
      (fun i => len ← get_length rows; lift (less_than i len))
      (filterData_body rows (VRef (length h0)) terms) (length pre) st
    = (fst (scan h0 terms rest acc),
       set_heap (h0 ++ [HArray (snd (scan h0 terms rest acc))]) st).
Proof.
  intros Hrows Hlen Hlt Hitems Hall.
  induction rest as [|r rest IH]; intros pre acc fuel st Hels Hh Hfuel;
    (destruct fuel as [|fuel]; [simpl in Hfuel; lia |]).
  - cbn [for_loop scan fst snd].
    rewrite bind_eq, (loop_cond_spec h0 [HArray acc] rows len) by done.
    rewrite Hlt, Hels, app_nil_r, Nat.ltb_irrefl, ret_eq.
    by rewrite <- Hh, set_heap_id.
  - assert (Hlk : items !! length pre = Some r).
    { rewrite Hels. by apply list_lookup_middle. }
    pose proof (Forall_lookup_1 _ _ _ _ Hall Hlk) as Hr.
    assert (Hcond : (length pre <? length items)%nat = true).
    { apply Nat.ltb_lt. apply lookup_lt_Some in Hlk. done. }
    specialize (IH (pre ++ [r])). rewrite length_app, Nat.add_1_r in IH.
    cbn [for_loop scan].
    rewrite bind_eq, (loop_cond_spec h0 [HArray acc] rows len) by done.
    rewrite Hlt, Hcond, bind_eq.
    rewrite (filterData_body_spec h0 rows (length pre) acc terms r st)
      by (try done; by apply Hitems).
    destruct (row_verdict h0 terms r) as [[|]|e]; cbn [fst snd];
      [| |by rewrite <- Hh, set_heap_id].
    + rewrite (IH (acc ++ [r]) fuel);
        [done | by rewrite Hels, <- app_assoc | done | simpl in Hfuel; lia].
    + rewrite (IH acc fuel st);
        [done | by rewrite Hels, <- app_assoc | done | simpl in Hfuel; lia].
Qed.

(** [filterData] is [scan] over the values it visits, into a fresh array. *)
Lemma filterData_items (st : State) (rows len : JsValue) (items : list JsValue)
    (q : string) :
  allocated (heap st) rows →
  read_length (heap st) rows = Normal len →
  (∀ i, less_than i len = Normal (i <? length items)%nat) →
  (length items ≤ turns len)%nat →
  (∀ i r, items !! i = Some r → read_index (heap st) rows i = Normal r) →
  Forall (allocated (heap st)) items →
  filterData rows q st
  = (match fst (scan (heap st) (toLowerCase q) items []) with
     | Normal _ => Normal (VRef (length (heap st)))
     | Throw e => Throw e
     end,
     set_heap (heap st ++ [HArray (snd (scan (heap st) (toLowerCase q) items []))]) st).
Proof.
  intros Hrows Hlen Hlt Hturns Hitems Hall.
  unfold filterData. rewrite bind_eq. unfold alloc at 1.
  rewrite bind_eq. unfold get_length at 1. cbn [heap set_heap].
  rewrite read_length_app, Hlen by done.
  rewrite bind_eq.
  rewrite (for_loop_scan (heap st) rows len items (toLowerCase q)
             Hrows Hlen Hlt Hitems Hall items [] []); try done.
  - rewrite set_heap_twice. by destruct (scan _ _ _ _) as [[[]|e] acc].
  - lia.
Qed.

Lemma filterData_scan (st : State) (a : nat) (els : list JsValue) (q : string) :
  heap st !! a = Some (HArray els) →
  Forall (allocated (heap st)) els →
  filterData (VRef a) q st
  = (match fst (scan (heap st) (toLowerCase q) els []) with
     | Normal _ => Normal (VRef (length (heap st)))
     | Throw e => Throw e
     end,
     set_heap (heap st ++ [HArray (snd (scan (heap st) (toLowerCase q) els []))]) st).
Proof.
  intros Ha Hall. pose proof (lookup_lt_Some _ _ _ Ha) as Hlt.
  apply (filterData_items st (VRef a) (VNum (Z.of_nat (length els)))); try done.
  - cbn [read_length]. by rewrite Ha.
  - intros i. apply less_than_length.
  - cbn [turns]. lia.
  - intros i r Hi. cbn [read_index]. by rewrite Ha, Hi.
Qed.

(** On rows that carry both fields [scan] is a filter. *)
Lemma row_verdict_string_fields (h : list HeapObj) (q : string) (r : JsValue) :
  has_string_fields h r →
  row_verdict h (toLowerCase q) r = Normal (row_matches h q r).
Proof.
  intros [[s Hs] [d Hd]]. unfold row_verdict, row_matches. rewrite Hs, Hd.
  unfold string_field in Hs, Hd.
  destruct (read_prop h r "subject") as [[| | | | |s'|]|]; try done.
  destruct (read_prop h r "description") as [[| | | | |d'|]|]; try done.
  simplify_eq. by destruct (includes (toLowerCase s) (toLowerCase q)).
Qed.

Lemma scan_string_fields (h : list HeapObj) (q : string) (rs acc : list JsValue) :
  Forall (has_string_fields h) rs →
  scan h (toLowerCase q) rs acc
  = (Normal tt, acc ++ filter (λ r, row_matches h q r = true) rs).
Proof.
  intros Hall. revert acc. induction Hall as [|r rs Hr _ IH]; intros acc; simpl.
  - by rewrite app_nil_r.
  - rewrite (row_verdict_string_fields h q r Hr).
    destruct (row_matches h q r) eqn:Em.
    + rewrite IH, filter_cons_True by done. by rewrite <- app_assoc.
    + rewrite IH, filter_cons_False; [done | congruence].
Qed.

Lemma has_string_fields_allocated (h : list HeapObj) (r : JsValue) :
  has_string_fields h r → allocated h r.
Proof.
  intros [[s Hs] _]. unfold string_field in Hs.
  destruct r as [| | | | | |l]; simpl in *; try done.
  destruct (h !! l) eqn:El; [by apply lookup_lt_Some in El | done].
Qed.

Lemma filterData_string_fields (st : State) (a : nat) (rows : list JsValue) (q : string) :
  heap st !! a = Some (HArray rows) →
  Forall (has_string_fields (heap st)) rows →
  filterData (VRef a) q st
  = (Normal (VRef (length (heap st))),
     set_heap (heap st ++ [HArray (filter (λ r, row_matches (heap st) q r = true) rows)]) st).
Proof.
  intros Ha Hall. rewrite (filterData_scan st a rows q Ha).
  - by rewrite scan_string_fields.
  - eapply Forall_impl; [done | apply has_string_fields_allocated].
Qed.

Lemma row_matches_spec (h : list HeapObj) (q : string) (r : JsValue) (s d : string) :
  string_field h r "subject" = Some s →
  string_field h r "description" = Some d →
  row_matches h q r = true
  ↔ substring (toLowerCase q) (toLowerCase s) ∨ substring (toLowerCase q) (toLowerCase d).
Proof.
  intros Hs Hd. unfold row_matches. rewrite Hs, Hd, orb_true_iff.
  by rewrite !includes_spec.
Qed.

(** On rows that cannot dangle, the test of a row throws exactly when the
    row is one of [row_throws], and then it is a [TypeError]. *)
Lemma row_verdict_throws (h : list HeapObj) (q : string) (r : JsValue) :
  allocated h r →
  (row_verdict h (toLowerCase q) r = Throw TypeError ∧ row_throws h q r) ∨
  (∃ b, row_verdict h (toLowerCase q) r = Normal b ∧ ¬ row_throws h q r).
Proof.
  intros Hr. unfold row_verdict, row_throws, string_field.
  assert (Hk : ∀ k, read_prop h r k ≠ Throw Stuck).
  { intros k. destruct r as [| | | | | |l]; simpl in *; try done.
    destruct (h !! l) as [[]|] eqn:El; try done.
    apply lookup_ge_None in El. lia. }
  pose proof (Hk "subject") as Hs. pose proof (Hk "description") as Hd.
  destruct (read_prop h r "subject") as [[| | | | |s|]|[]]; try done;
    try (left; split; [done | by left]).
  destruct (includes (toLowerCase s) (toLowerCase q)) eqn:Es.
  { right. exists true. split; [done |]. intros [? | (s' & ? & ? & ?)]; [done | congruence]. }
  destruct (read_prop h r "description") as [[| | | | |d|]|[]]; try done;
    try (left; split; [done | right; by exists s]).
  right. eexists. split; [done |]. intros [? | (s' & ? & ? & ?)]; done.
Qed.

Lemma scan_throws (h : list HeapObj) (q : string) (rs acc : list JsValue) :
  Forall (allocated h) rs →
  (Exists (row_throws h q) rs ∧ fst (scan h (toLowerCase q) rs acc) = Throw TypeError) ∨
  (¬ Exists (row_throws h q) rs ∧ fst (scan h (toLowerCase q) rs acc) = Normal tt).
Proof.
  intros Hall. revert acc. induction Hall as [|r rs Hr _ IH]; intros acc; simpl.
  - right. split; [by inversion 1 | done].
  - destruct (row_verdict_throws h q r Hr) as [[-> Ht] | (b & -> & Hn)].
    + left. split; [by left | done].
    + assert (Hscan : ∀ acc',
        (Exists (row_throws h q) (r :: rs) ∧ fst (scan h (toLowerCase q) rs acc') = Throw TypeError) ∨
        (¬ Exists (row_throws h q) (r :: rs) ∧ fst (scan h (toLowerCase q) rs acc') = Normal tt)).
      { intros acc'. destruct (IH acc') as [[He Hs] | [He Hs]].
        - left. split; [by right | done].
        - right. split; [| done]. rewrite Exists_cons. tauto. }
      destruct b; apply Hscan.
Qed.

(** C1: on rows that hold a string subject and a string description,
    [filterData(rows, q)] returns a new array with exactly the rows whose
    lowered subject or lowered description contains the lowered query; a row
    matching in neither field is left out. *)
Theorem filterData_retains_matching (st : State) (a : nat) (rows : list JsValue) (q : string) :
  heap st !! a = Some (HArray rows) →
  Forall (has_string_fields (heap st)) rows →
  ∃ kept,
    filterData (VRef a) q st
    = (Normal (VRef (length (heap st))), set_heap (heap st ++ [HArray kept]) st) ∧
    kept = filter (λ r, row_matches (heap st) q r = true) rows ∧
    ∀ r s d,
      r ∈ rows →
      string_field (heap st) r "subject" = Some s →
      string_field (heap st) r "description" = Some d →
      (r ∈ kept ↔
       substring (toLowerCase q) (toLowerCase s) ∨ substring (toLowerCase q) (toLowerCase d)).
Proof.
  intros Ha Hall. eexists. split; [by apply filterData_string_fields |].
  split; [done |]. intros r s d Hr Hs Hd.
  rewrite list_elem_of_filter, (row_matches_spec _ q r s d Hs Hd). tauto.
Qed.

(** C2: on such rows the result of [filterData(rows, q)] is a subsequence of
    [rows] in the original order, held in a fresh array; every cell that
    existed before the call, the row array and the rows among them, is
    unchanged, and so is the rest of the component state. *)
Theorem filterData_subsequence_pure (st : State) (a : nat) (rows : list JsValue) (q : string) :
  heap st !! a = Some (HArray rows) →
  Forall (has_string_fields (heap st)) rows →
  ∃ kept st',
    filterData (VRef a) q st = (Normal (VRef (length (heap st))), st') ∧
    heap st' = heap st ++ [HArray kept] ∧
    sublist kept rows ∧
    (∀ l o, heap st !! l = Some o → heap st' !! l = Some o) ∧
    heap st' !! a = Some (HArray rows) ∧
    Forall (λ r, ∀ k, read_prop (heap st') r k = read_prop (heap st) r k) rows ∧
    ticket st' = ticket st ∧ tickets st' = tickets st ∧
    showaddTicketDialog st' = showaddTicketDialog st ∧
    showUpdateTicketDialog st' = showUpdateTicketDialog st ∧
    log st' = log st ∧ conts st' = conts st.
Proof.
  intros Ha Hall. do 2 eexists. split; [by apply filterData_string_fields |].
  cbn [heap set_heap ticket tickets showaddTicketDialog showUpdateTicketDialog log conts].
  split; [done |]. split; [apply sublist_filter |].
  assert (Hold : ∀ l o x, heap st !! l = Some o → (heap st ++ x) !! l = Some o).
  { intros l o x Hl. rewrite lookup_app_l; [done | by apply lookup_lt_Some in Hl]. }
  split; [by intros; apply Hold |]. split; [by apply Hold |].
  split; [| done].
  eapply Forall_impl; [done |]. intros r Hr k. cbn beta in Hr |- *.
  apply read_prop_app. by apply has_string_fields_allocated.
Qed.

(** C3: with the empty query, and a [toLowerCase] that keeps the empty
    string empty, [filterData(rows, "")] returns a new array holding all
    the rows, the same values in the same order. *)
Theorem filterData_empty_query (st : State) (a : nat) (rows : list JsValue) :
  toLowerCase "" = "" →
  heap st !! a = Some (HArray rows) →
  Forall (has_string_fields (heap st)) rows →
  filterData (VRef a) "" st
  = (Normal (VRef (length (heap st))), set_heap (heap st ++ [HArray rows]) st).
Proof.
  intros Hlow Ha Hall. rewrite (filterData_string_fields st a rows "" Ha Hall).
  assert (Hall' : filter (λ r, row_matches (heap st) "" r = true) rows = rows).
  { clear Ha. induction Hall as [|r rs Hr _ IH]; [done |].
    rewrite filter_cons_True, IH; [done |].
    destruct Hr as [[s Hs] [d Hd]]. unfold row_matches.
    by rewrite Hs, Hd, Hlow, includes_empty. }
  by rewrite Hall'.
Qed.

(** C10, as amended: over rows that are values of the heap, [filterData]
    throws a [TypeError] exactly when some row has no string subject, or has
    a subject that does not match and no string description; otherwise it
    returns the new array.  A row whose subject matches is accepted without
    its description being read. *)
Theorem filterData_throws_iff (st : State) (a : nat) (rows : list JsValue) (q : string) :
  heap st !! a = Some (HArray rows) →
  Forall (allocated (heap st)) rows →
  (Exists (row_throws (heap st) q) rows →
   fst (filterData (VRef a) q st) = Throw TypeError) ∧
  (¬ Exists (row_throws (heap st) q) rows →
   fst (filterData (VRef a) q st) = Normal (VRef (length (heap st)))).
Proof.
  intros Ha Hall. rewrite (filterData_scan st a rows q Ha Hall). cbn [fst].
  destruct (scan_throws (heap st) q rows [] Hall) as [[He ->] | [He ->]];
    split; intros H; done.
Qed.

End FilterProofs.

(** The case-insensitivity examples: the row with subject "Foo" is returned
    for the query "foo", and the row with subject "foo" for "FOO". *)
Example filterData_Foo_foo :
  filterData (VRef 1) "foo" foo_state
  = (Normal (VRef 2), set_heap (heap foo_state ++ [HArray [VRef 0]]) foo_state).
Proof. reflexivity. Qed.

Example filterData_foo_FOO :
  let st := set_heap [HObject [("subject", VStr "foo")]; HArray [VRef 0]] foo_state in
  filterData (VRef 1) "FOO" st = (Normal (VRef 2), set_heap (heap st ++ [HArray [VRef 0]]) st).
Proof. reflexivity. Qed.

Lemma sample_rows_string_fields :
  Forall (has_string_fields (heap sample_state)) [VRef 0; VRef 1; VRef 2].
Proof. repeat constructor; eexists; reflexivity. Defined.

Lemma filterData_retains_matching_witness :
  ∃ kept,
    filterData (VRef 3) "LOGIN" sample_state
    = (Normal (VRef 4), set_heap (heap sample_state ++ [HArray kept]) sample_state) ∧
    kept = filter (λ r, row_matches (heap sample_state) "LOGIN" r = true)
             [VRef 0; VRef 1; VRef 2] ∧
    ∀ r s d,
      r ∈ [VRef 0; VRef 1; VRef 2] →
      string_field (heap sample_state) r "subject" = Some s →
      string_field (heap sample_state) r "description" = Some d →
      (r ∈ kept ↔
       substring (toLowerCase "LOGIN") (toLowerCase s) ∨
       substring (toLowerCase "LOGIN") (toLowerCase d)).
Proof.
  apply (filterData_retains_matching sample_state 3 [VRef 0; VRef 1; VRef 2] "LOGIN").
  - reflexivity.
  - exact sample_rows_string_fields.
Defined.

Lemma filterData_subsequence_pure_witness :
  ∃ kept st',
    filterData (VRef 3) "LOGIN" sample_state = (Normal (VRef 4), st') ∧
    heap st' = heap sample_state ++ [HArray kept] ∧
    sublist kept [VRef 0; VRef 1; VRef 2] ∧
    (∀ l o, heap sample_state !! l = Some o → heap st' !! l = Some o) ∧
    heap st' !! 3 = Some (HArray [VRef 0; VRef 1; VRef 2]) ∧
    Forall (λ r, ∀ k, read_prop (heap st') r k = read_prop (heap sample_state) r k)
      [VRef 0; VRef 1; VRef 2] ∧
    ticket st' = ticket sample_state ∧ tickets st' = tickets sample_state ∧
    showaddTicketDialog st' = showaddTicketDialog sample_state ∧
    showUpdateTicketDialog st' = showUpdateTicketDialog sample_state ∧
    log st' = log sample_state ∧ conts st' = conts sample_state.
Proof.
  apply (filterData_subsequence_pure sample_state 3 [VRef 0; VRef 1; VRef 2] "LOGIN").
  - reflexivity.
  - exact sample_rows_string_fields.
Defined.

Lemma filterData_empty_query_witness :
  filterData (VRef 3) "" sample_state
  = (Normal (VRef 4),
     set_heap (heap sample_state ++ [HArray [VRef 0; VRef 1; VRef 2]]) sample_state).
Proof.
  apply (filterData_empty_query sample_state 3 [VRef 0; VRef 1; VRef 2]).
  - reflexivity.
  - reflexivity.
  - exact sample_rows_string_fields.
Defined.

(** C10 as stated fails: the row of [foo_state] has no description, yet the
    call returns, for the query "foo" and for the empty query, because the
    subject already matches. *)
Lemma filterData_returns_without_description :
  string_field (heap foo_state) (VRef 0) "description" = None ∧
  fst (filterData (VRef 1) "foo" foo_state) = Normal (VRef 2) ∧
  fst (filterData (VRef 1) "" foo_state) = Normal (VRef 2).
Proof. repeat split; reflexivity. Qed.

Lemma filterData_throws_iff_witness :
  (Exists (row_throws (heap foo_state) "fox") [VRef 0] →
   fst (filterData (VRef 1) "fox" foo_state) = Throw TypeError) ∧
  (¬ Exists (row_throws (heap foo_state) "fox") [VRef 0] →
   fst (filterData (VRef 1) "fox" foo_state) = Normal (VRef (length (heap foo_state)))).
Proof.
  apply (filterData_throws_iff foo_state 1 [VRef 0] "fox").
  - reflexivity.
  - repeat constructor.
Defined.

(** ** The loader *)

Lemma field_app (h x : list HeapObj) (v : JsValue) (k : string) :
  allocated h v → field (h ++ x) v k = field h v k.
Proof. intros Hv. unfold field. by rewrite read_prop_app. Qed.

Lemma is_object_allocated (h : list HeapObj) (v : JsValue) : is_object h v → allocated h v.
Proof. intros (l & ps & -> & Hl). simpl. by apply lookup_lt_Some in Hl. Qed.

Lemma is_object_app (h x : list HeapObj) (v : JsValue) : is_object h v → is_object (h ++ x) v.
Proof.
  intros (l & ps & -> & Hl). exists l, ps. split; [done |].
  rewrite lookup_app_l; [done | by apply lookup_lt_Some in Hl].
Qed.

Lemma read_prop_object (h : list HeapObj) (v : JsValue) (k : string) :
  is_object h v → read_prop h v k = Normal (field h v k).
Proof. intros (l & ps & -> & Hl). unfold field. simpl. by rewrite Hl. Qed.

Section LoaderProofs.

Context `{RT : Runtime}.

Lemma row_literal_app (h x : list HeapObj) (num : Z) (data : JsValue) :
  allocated h data → row_literal (h ++ x) num data = row_literal h num data.
Proof. intros Hd. unfold row_literal. by rewrite !field_app. Qed.

(** The row literal on an object: one fresh cell, nothing else touched. *)
Lemma ticket_row_spec (num : Z) (data : JsValue) (st : State) :
  is_object (heap st) data →
  ticket_row (VNum num) data st
  = (Normal (VRef (length (heap st))),
     set_heap (heap st ++ [HObject (row_literal (heap st) num data)]) st).
Proof.
  intros Hd. unfold ticket_row, row_literal, get_prop.
  rewrite !bind_eq, !(read_prop_object _ _ _ Hd).
  repeat (rewrite bind_eq, (read_prop_object _ _ _ Hd)). done.
Qed.

Lemma mapped_from_literal (h h' : list HeapObj) (l : nat) (num : Z) (data : JsValue) :
  is_object h data →
  h' !! l = Some (HObject (row_literal h num data)) →
  mapped_from h' (VRef l) h num data.
Proof.
  intros Hd Hl. unfold mapped_from. cbn [read_prop]. rewrite Hl.
  rewrite !(read_prop_object h data _ Hd). by repeat split.
Qed.

(** The callback of [getTickets] over the records: one row cell per
    record, numbered from the counter on, allocated in order. *)
Lemma map_elems_rows (rs : list JsValue) :
  ∀ (c : Z) (st : State),
    Forall (is_object (heap st)) rs →
    map_elems (fun counter data => row ← ticket_row (VNum counter) data; mret ((counter + 1)%Z, row))
      c rs st
    = (Normal (VRef <$> seq (length (heap st)) (length rs)),
       set_heap
         (heap st ++ imap (λ i r, HObject (row_literal (heap st) (c + Z.of_nat i) r)) rs)
         st).
Proof.
  induction rs as [|r rs IH]; intros c st Hall.
  - cbn [map_elems imap length seq fmap list_fmap]. rewrite ret_eq, app_nil_r.
    by rewrite set_heap_id.
  - apply Forall_cons in Hall as [Hr Hall].
    cbn [map_elems]. rewrite !bind_eq, (ticket_row_spec c r st Hr), ret_eq.
    rewrite bind_eq, IH; cbn [heap set_heap].
    2:{ eapply Forall_impl; [done | intros x; apply is_object_app]. }
    rewrite ret_eq, set_heap_twice, length_app, Nat.add_1_r.
    f_equal. f_equal. rewrite <- app_assoc. f_equal.
    rewrite imap_cons, Z.add_0_r. cbn [app]. f_equal.
    apply imap_ext. intros i x Hx. cbn beta. unfold compose.
    rewrite row_literal_app.
    + do 2 f_equal. lia.
    + apply is_object_allocated. by eapply Forall_lookup_1.
Qed.

(** The callback of [getTickets] on a response [{data: {data: records}}]
    whose records are objects. *)
Lemma getTickets_then_spec (dismiss : nat) (res d : JsValue) (arr : nat)
    (records : list JsValue) (st : State) :
  read_prop (heap st) res "data" = Normal d →
  read_prop (heap st) d "data" = Normal (VRef arr) →
  heap st !! arr = Some (HArray records) →
  Forall (is_object (heap st)) records →
  let n := length records in
  let cells := imap (λ i r, HObject (row_literal (heap st) (1 + Z.of_nat i) r)) records in
  getTickets_then dismiss res st
  = (Normal tt,
     set_log (log st ++ [EDismiss dismiss])
       (set_tickets (VRef (length (heap st) + n))
          (set_heap (heap st ++ cells ++ [HArray (VRef <$> seq (length (heap st)) n)]) st))).
Proof.
  intros Hres Hd Harr Hall n cells. unfold getTickets_then, get_prop.
  rewrite bind_eq, Hres, bind_eq, Hd, bind_eq.
  unfold array_map. rewrite bind_eq. unfold gets at 1. rewrite Harr.
  rewrite bind_eq, (map_elems_rows records 1 st Hall).
  unfold alloc. cbn [heap set_heap]. rewrite bind_eq. unfold modify at 1.
  unfold call_dismiss, emit. rewrite bind_eq, ret_eq.
  rewrite length_app, length_imap. fold n. fold cells.
  f_equal. destruct st. unfold set_log, set_tickets, set_heap. simpl.
  by rewrite <- app_assoc.
Qed.

Lemma settle_found (handle : nat) (s : Settlement) (k : Cont) (st : State) :
  find_cont handle (conts st) = Some k →
  settle handle s st = run_cont k s (set_conts (remove_cont handle (conts st)) st).
Proof. intros Hk. unfold settle, gets. rewrite bind_eq, Hk. done. Qed.

Lemma settle_missing (handle : nat) (s : Settlement) (st : State) :
  find_cont handle (conts st) = None → settle handle s st = (Normal tt, st).
Proof. intros Hk. unfold settle, gets. rewrite bind_eq, Hk. done. Qed.

(** C4, as amended: when the list call of a pending load is fulfilled with
    a response holding N records, the row list becomes a new array of N
    rows; row [i] (from 0) is numbered [i + 1] whatever its id, takes
    [description] from [description_text], holds in [created] and [updated]
    what [formatDate] returns for [created_at] and [updated_at] under the
    mask [YYYY-MM-DDTHH:mm:ssZ], and takes [id], [subject], [status],
    [comments] as they are; the loading notification is then dismissed. *)
Theorem getTickets_rows_numbered (p dismiss : nat) (res d : JsValue) (arr : nat)
    (records : list JsValue) (st : State) :
  find_cont p (conts st) = Some (KListThen dismiss) →
  read_prop (heap st) res "data" = Normal d →
  read_prop (heap st) d "data" = Normal (VRef arr) →
  heap st !! arr = Some (HArray records) →
  Forall (is_object (heap st)) records →
  ∃ t rows,
    let st' := step st (EvSettle p (Fulfilled res)) in
    handle_event (EvSettle p (Fulfilled res)) st = (Normal tt, st') ∧
    tickets st' = VRef t ∧
    heap st' !! t = Some (HArray rows) ∧
    length rows = length records ∧
    (∀ i data, records !! i = Some data →
       ∃ row, rows !! i = Some row ∧
              mapped_from (heap st') row (heap st) (Z.of_nat i + 1) data) ∧
    log st' = log st ++ [EDismiss dismiss].
Proof.
  intros Hp Hres Hd Harr Hall.
  exists (length (heap st) + length records), (VRef <$> seq (length (heap st)) (length records)).
  unfold step. cbn [handle_event]. rewrite (settle_found p _ _ st Hp). cbn [run_cont].
  rewrite (getTickets_then_spec dismiss res d arr records
             (set_conts (remove_cont p (conts st)) st) Hres Hd Harr Hall).
  cbn [snd fst heap set_heap set_log set_tickets set_conts tickets log].
  split; [done |]. split; [done |].
  split.
  { rewrite app_assoc. apply list_lookup_middle. by rewrite length_app, length_imap. }
  split; [by rewrite length_fmap, length_seq |].
  split; [| done].
  intros i data Hi. pose proof (lookup_lt_Some _ _ _ Hi) as Hlt.
  exists (VRef (length (heap st) + i)). split.
  { rewrite list_lookup_fmap, lookup_seq_lt by done. done. }
  apply mapped_from_literal; [by eapply Forall_lookup_1 |].
  rewrite lookup_app_r by lia.
  replace (length (heap st) + i - length (heap st)) with i by lia.
  rewrite lookup_app_l by (by rewrite length_imap).
  rewrite list_lookup_imap, Hi. cbn. do 3 f_equal. lia.
Qed.

End LoaderProofs.

Lemma getTickets_rows_numbered_witness :
  ∃ t rows,
    let st' := step worked_state (EvSettle 1 (Fulfilled (VRef 6))) in
    handle_event (EvSettle 1 (Fulfilled (VRef 6))) worked_state = (Normal tt, st') ∧
    tickets st' = VRef t ∧
    heap st' !! t = Some (HArray rows) ∧
    length rows = length [VRef 3] ∧
    (∀ i data, [VRef 3] !! i = Some data →
       ∃ row, rows !! i = Some row ∧
              mapped_from (heap st') row (heap worked_state) (Z.of_nat i + 1) data) ∧
    log st' = log worked_state ++ [EDismiss 0].
Proof.
  apply (getTickets_rows_numbered 1 0 (VRef 6) (VRef 5) 4 [VRef 3] worked_state).
  - reflexivity.
  - reflexivity.
  - reflexivity.
  - reflexivity.
  - repeat constructor. by eexists _, _.
Defined.

(** The worked example under any [formatDate]: the first load maps the
    record to a row that holds, in [created] and [updated], what
    [formatDate] returns for the stamp of the record; the other six fields
    are those of the example. *)
Example getTickets_worked_example `{RT : Runtime} :
  let st' := step worked_state (EvSettle 1 (Fulfilled (VRef 6))) in
  tickets st' = VRef 8 ∧
  heap st' !! 8 = Some (HArray [VRef 7]) ∧
  heap st' !! 7
  = Some (HObject [("#", VNum 1); ("id", VStr "t1"); ("subject", VStr "Login issue");
                   ("description", VStr "Cannot log in"); ("status", VStr "open");
                   ("created", formatDate (VStr "2023-01-01T00:00:00Z") date_mask);
                   ("updated", formatDate (VStr "2023-01-01T00:00:00Z") date_mask);
                   ("comments", VRef 2)]).
Proof. destruct RT as [lower fmt]. repeat split; reflexivity. Qed.

(** The stand-in on the stamp of the worked example: the date and the time
    as they are, then the offset of the zone. *)
Example formatDate_worked_stamp :
  formatDate (VStr "2023-01-01T00:00:00Z") date_mask = VStr "2023-01-01T00:00:00+00:00" ∧
  formatDate VUndefined date_mask = VUndefined.
Proof. split; reflexivity. Qed.

(** C4 as stated fails at the worked example: on a host in UTC the first
    load maps the record of the example to a row whose [created] and
    [updated] end in [+00:00], the offset that the [Z] of the mask stands
    for, and not in the letter Z the example shows.  The other six fields
    are those of the example. *)
Lemma getTickets_worked_example_dates :
  let st' := step worked_state (EvSettle 1 (Fulfilled (VRef 6))) in
  tickets st' = VRef 8 ∧
  heap st' !! 8 = Some (HArray [VRef 7]) ∧
  heap st' !! 7
  = Some (HObject [("#", VNum 1); ("id", VStr "t1"); ("subject", VStr "Login issue");
                   ("description", VStr "Cannot log in"); ("status", VStr "open");
                   ("created", VStr "2023-01-01T00:00:00+00:00");
                   ("updated", VStr "2023-01-01T00:00:00+00:00"); ("comments", VRef 2)]) ∧
  read_prop (heap st') (VRef 7) "created" ≠ Normal (VStr "2023-01-01T00:00:00Z") ∧
  read_prop (heap st') (VRef 7) "updated" ≠ Normal (VStr "2023-01-01T00:00:00Z").
Proof. repeat split; done. Qed.

(** ** The create flow *)

Section EditorProofs.

Context `{RT : Runtime}.

(** [updateTicketList] on an event whose record is an object, the row list
    being an array: four cells are allocated, the last one the new list. *)
Lemma updateTicketList_spec (data rec : JsValue) (t : nat) (old : list JsValue) (st : State) :
  read_prop (heap st) data "data" = Normal rec →
  is_object (heap st) rec →
  tickets st = VRef t →
  heap st !! t = Some (HArray old) →
  let n := length (heap st) in
  updateTicketList data st
  = (Normal tt,
     set_log (log st ++ [added_notice])
       (set_tickets (VRef (n + 3))
          (set_heap
             (heap st ++
                [HArray [rec];
                 HObject (row_literal (heap st) (Z.of_nat (length old) + 1) rec);
                 HArray [VRef (n + 1)];
                 HArray (old ++ [VRef (n + 1)])])
             (set_showaddTicketDialog false st)))).
Proof.
  intros Hdata Hrec Ht Hold n. pose proof (lookup_lt_Some _ _ _ Hold) as Hlt.
  assert (Hdata' : allocated (heap st) data).
  { destruct data as [| | | | | |l]; simpl in *; try done.
    destruct (heap st !! l) eqn:El; [by apply lookup_lt_Some in El | done]. }
  destruct st as [h tk tks sa su lg ks]. cbn [heap tickets log] in *. subst tks n.
  unfold updateTicketList.
  rewrite bind_eq. unfold modify at 1. norm_state.
  rewrite bind_eq. unfold alloc at 1. norm_state.
  rewrite bind_eq. unfold get_prop at 1. norm_state.
  rewrite read_prop_app, Hdata by done.
  rewrite bind_eq, (array_push_last h [] rec) by done. norm_state.
  rewrite bind_eq. unfold array_map at 1. rewrite bind_eq. unfold gets at 1. norm_state.
  rewrite list_lookup_middle by done.
  rewrite bind_eq. cbn [map_elems]. rewrite bind_eq, bind_eq. unfold gets at 1. norm_state.
  rewrite bind_eq, (get_length_array t old) by (norm_state; by rewrite lookup_app_l).
  rewrite bind_eq. unfold lift at 1. cbn [plus_one].
  rewrite bind_eq, ticket_row_spec by (norm_state; by apply is_object_app).
  rewrite ret_eq, bind_eq, ret_eq, ret_eq. norm_state.
  unfold alloc at 1. norm_state.
  rewrite bind_eq. unfold gets at 1. norm_state.
  rewrite bind_eq, (spread_array t old) by (norm_state; by rewrite lookup_app_l).
  rewrite bind_eq, (spread_array (length h + 2) [VRef (length h + 1)]).
  2:{ norm_state. rewrite lookup_app_r by lia.
      by replace (length h + 2 - length h) with 2 by lia. }
  rewrite bind_eq. unfold alloc at 1. norm_state.
  rewrite bind_eq. unfold modify at 1. norm_state.
  rewrite bind_eq. unfold notify, emit. rewrite ret_eq. norm_state.
  unfold added_notice. rewrite row_literal_app by (by apply is_object_allocated).
  do 3 f_equal; lia.
Qed.

(** C5: the "updated" event of the add panel, on a row list of length K,
    makes the row list a new array of length K + 1: the K rows as they were,
    then one row mapped from the returned record and numbered K + 1.  No
    existing cell changes, the add dialog is closed and the success
    notification is emitted. *)
Theorem updateTicketList_appends (data rec : JsValue) (t : nat) (old : list JsValue)
    (st : State) :
  read_prop (heap st) data "data" = Normal rec →
  is_object (heap st) rec →
  tickets st = VRef t →
  heap st !! t = Some (HArray old) →
  ∃ st' t' row,
    updateTicketList data st = (Normal tt, st') ∧
    tickets st' = VRef t' ∧
    heap st' !! t' = Some (HArray (old ++ [row])) ∧
    length (old ++ [row]) = length old + 1 ∧
    mapped_from (heap st') row (heap st) (Z.of_nat (length old) + 1) rec ∧
    (∀ l o, heap st !! l = Some o → heap st' !! l = Some o) ∧
    (∀ r k, r ∈ old → allocated (heap st) r →
            read_prop (heap st') r k = read_prop (heap st) r k) ∧
    showaddTicketDialog st' = false ∧
    log st' = log st ++ [added_notice] ∧
    ticket st' = ticket st ∧
    showUpdateTicketDialog st' = showUpdateTicketDialog st ∧
    conts st' = conts st.
Proof.
  intros Hdata Hrec Ht Hold. do 3 eexists.
  split; [by apply (updateTicketList_spec data rec t old) |].
  norm_state.
  split; [done |].
  split.
  { rewrite lookup_app_r by lia.
    by replace (length (heap st) + 3 - length (heap st)) with 3 by lia. }
  split; [rewrite ?length_app; cbn [length]; lia |].
  split.
  { apply mapped_from_literal; [done |]. rewrite lookup_app_r by lia.
    by replace (S (length (heap st)) - length (heap st)) with 1 by lia. }
  split.
  { intros l o Hl. rewrite lookup_app_l; [done | by apply lookup_lt_Some in Hl]. }
  split; [| done].
  intros r k _ Hr. by apply read_prop_app.
Qed.

Lemma getTickets_eq (st : State) :
  getTickets st
  = (Normal tt,
     set_conts (conts st ++ [(S (length (log st)), KListThen (length (log st)))])
       (set_log (log st ++ [loading_notice; list_call]) st)).
Proof.
  unfold getTickets, notify, ticketsService_list, register, emit, modify.
  rewrite !bind_eq. norm_state. done.
Qed.

Lemma ticketUpdated_eq (st : State) :
  ticketUpdated st
  = (Normal tt,
     set_conts (conts st ++ [(S (length (log st)), KListThen (length (log st)))])
       (set_log (log st ++ [loading_notice; list_call])
          (set_showUpdateTicketDialog false st))).
Proof. unfold ticketUpdated, modify. by rewrite bind_eq, getTickets_eq. Qed.

(** C6, as amended: the "updated" event of the edit panel resets the
    visibility flag of the edit dialog and triggers a full reload: it runs
    the loader [getTickets], which shows the loading notification, makes the
    list call and registers the loader callback on it.  The handler changes
    nothing else. *)
Theorem ticketUpdated_reloads (st : State) :
  ∃ st',
    ticketUpdated st = (Normal tt, st') ∧
    getTickets (set_showUpdateTicketDialog false st) = (Normal tt, st') ∧
    showUpdateTicketDialog st' = false ∧
    log st' = log st ++ [loading_notice; list_call] ∧
    conts st' = conts st ++ [(S (length (log st)), KListThen (length (log st)))] ∧
    heap st' = heap st ∧
    tickets st' = tickets st ∧
    ticket st' = ticket st ∧
    showaddTicketDialog st' = showaddTicketDialog st.
Proof.
  eexists. split; [apply ticketUpdated_eq |].
  split; [by rewrite getTickets_eq |]. by repeat split.
Qed.

(** [editTicket] on an object: the form is a fresh object built from the
    properties [id], [subject], [description], [status], [createdAt],
    [updatedAt] and [comments] of the clicked one. *)
Lemma editTicket_spec (evt props : JsValue) (st : State) :
  is_object (heap st) props →
  editTicket evt props st
  = (Normal tt,
     set_showUpdateTicketDialog true
       (set_ticket (VRef (length (heap st)))
          (set_heap
             (heap st ++
                [HObject [("id", field (heap st) props "id");
                          ("subject", field (heap st) props "subject");
                          ("description", field (heap st) props "description");
                          ("status", field (heap st) props "status");
                          ("created", formatDate (field (heap st) props "createdAt") date_mask);
                          ("updated", formatDate (field (heap st) props "updatedAt") date_mask);
                          ("comments", field (heap st) props "comments")]])
             st))).
Proof.
  intros Hp. unfold editTicket, get_prop.
  repeat (rewrite bind_eq, (read_prop_object _ _ _ Hp)).
  unfold alloc, modify. by rewrite !bind_eq.
Qed.

(** C7, as the code has it: on a row built by the loader, [editTicket]
    fills [id], [subject], [description], [status] and [comments] of the
    edit form from the row and opens the edit dialog, but it reads the dates
    from [createdAt] and [updatedAt], which such a row does not have: the
    form's [created] and [updated] are [formatDate] of undefined, whatever
    the row's [created] and [updated] hold. *)
Theorem editTicket_dates_not_from_row (evt : JsValue) (l : nat) (h : list HeapObj)
    (num : Z) (data : JsValue) (st : State) :
  heap st !! l = Some (HObject (row_literal h num data)) →
  ∃ st',
    editTicket evt (VRef l) st = (Normal tt, st') ∧
    showUpdateTicketDialog st' = true ∧
    read_prop (heap st') (ticket st') "id" = read_prop (heap st) (VRef l) "id" ∧
    read_prop (heap st') (ticket st') "subject" = read_prop (heap st) (VRef l) "subject" ∧
    read_prop (heap st') (ticket st') "description"
      = read_prop (heap st) (VRef l) "description" ∧
    read_prop (heap st') (ticket st') "status" = read_prop (heap st) (VRef l) "status" ∧
    read_prop (heap st') (ticket st') "comments" = read_prop (heap st) (VRef l) "comments" ∧
    read_prop (heap st') (ticket st') "created" = Normal (formatDate VUndefined date_mask) ∧
    read_prop (heap st') (ticket st') "updated" = Normal (formatDate VUndefined date_mask) ∧
    read_prop (heap st) (VRef l) "created"
      = Normal (formatDate (field h data "created_at") date_mask) ∧
    read_prop (heap st) (VRef l) "updated"
      = Normal (formatDate (field h data "updated_at") date_mask).
Proof.
  intros Hl. assert (Hobj : is_object (heap st) (VRef l)) by (by eexists _, _).
  eexists. split; [by apply editTicket_spec |].
  norm_state. cbn [read_prop]. rewrite list_lookup_middle by done.
  unfold field. cbn [read_prop]. rewrite Hl. by repeat split.
Qed.

End EditorProofs.

Lemma updateTicketList_appends_witness :
  ∃ st' t' row,
    updateTicketList (VRef 5) create_state = (Normal tt, st') ∧
    tickets st' = VRef t' ∧
    heap st' !! t' = Some (HArray ([VRef 0; VRef 1; VRef 2] ++ [row])) ∧
    length ([VRef 0; VRef 1; VRef 2] ++ [row]) = length [VRef 0; VRef 1; VRef 2] + 1 ∧
    mapped_from (heap st') row (heap create_state)
      (Z.of_nat (length [VRef 0; VRef 1; VRef 2]) + 1) (VRef 4) ∧
    (∀ l o, heap create_state !! l = Some o → heap st' !! l = Some o) ∧
    (∀ r k, r ∈ [VRef 0; VRef 1; VRef 2] → allocated (heap create_state) r →
            read_prop (heap st') r k = read_prop (heap create_state) r k) ∧
    showaddTicketDialog st' = false ∧
    log st' = log create_state ++ [added_notice] ∧
    ticket st' = ticket create_state ∧
    showUpdateTicketDialog st' = showUpdateTicketDialog create_state ∧
    conts st' = conts create_state.
Proof.
  apply (updateTicketList_appends (VRef 5) (VRef 4) 3 [VRef 0; VRef 1; VRef 2] create_state).
  - reflexivity.
  - by eexists _, _.
  - reflexivity.
  - reflexivity.
Defined.

(** C6 as stated fails: from the sample table, whose log is empty, the
    "updated" event of the edit panel issues the loading notification and the
    list call, and leaves the loader callback pending. *)
Lemma ticketUpdated_triggers_reload :
  log sample_state = [] ∧
  log (snd (ticketUpdated sample_state)) = [loading_notice; list_call] ∧
  conts (snd (ticketUpdated sample_state)) = [(1, KListThen 0)] ∧
  snd (ticketUpdated sample_state) ≠ set_showUpdateTicketDialog false sample_state.
Proof. repeat split; done. Qed.

Lemma editTicket_dates_not_from_row_witness :
  ∃ st',
    editTicket VUndefined (VRef 7) loaded_state = (Normal tt, st') ∧
    showUpdateTicketDialog st' = true ∧
    read_prop (heap st') (ticket st') "id" = read_prop (heap loaded_state) (VRef 7) "id" ∧
    read_prop (heap st') (ticket st') "subject"
      = read_prop (heap loaded_state) (VRef 7) "subject" ∧
    read_prop (heap st') (ticket st') "description"
      = read_prop (heap loaded_state) (VRef 7) "description" ∧
    read_prop (heap st') (ticket st') "status"
      = read_prop (heap loaded_state) (VRef 7) "status" ∧
    read_prop (heap st') (ticket st') "comments"
      = read_prop (heap loaded_state) (VRef 7) "comments" ∧
    read_prop (heap st') (ticket st') "created" = Normal (formatDate VUndefined date_mask) ∧
    read_prop (heap st') (ticket st') "updated" = Normal (formatDate VUndefined date_mask) ∧
    read_prop (heap loaded_state) (VRef 7) "created"
      = Normal (formatDate (field worked_heap (VRef 3) "created_at") date_mask) ∧
    read_prop (heap loaded_state) (VRef 7) "updated"
      = Normal (formatDate (field worked_heap (VRef 3) "updated_at") date_mask).
Proof.
  apply (editTicket_dates_not_from_row VUndefined 7 worked_heap 1 (VRef 3) loaded_state).
  reflexivity.
Defined.

(** The clicked row of the worked example keeps its date in [created]; the
    edit form built from it holds undefined there, which is what
    [formatDate] returns for undefined. *)
Example editTicket_worked_example :
  read_prop (heap loaded_state) (VRef 7) "created"
  = Normal (VStr "2023-01-01T00:00:00+00:00") ∧
  let st' := snd (editTicket VUndefined (VRef 7) loaded_state) in
  read_prop (heap st') (ticket st') "created" = Normal VUndefined ∧
  read_prop (heap st') (ticket st') "id" = Normal (VStr "t1").
Proof. repeat split; reflexivity. Qed.

(** ** Calls and registrations of the handlers *)

Lemma quiet_bind {A B : Type} (m : M A) (f : A → M B) :
  quiet m → (∀ a, quiet (f a)) → quiet (m ≫= f).
Proof.
  intros Hm Hf st. rewrite bind_eq. specialize (Hm st).
  destruct (m st) as [[a|e] st']; cbn [snd] in *; [| done].
  destruct Hm as [Hl Hc]. destruct (Hf a st') as [Hl' Hc']. split; congruence.
Qed.

Lemma quiet_ret {A : Type} (a : A) : quiet (mret a : M A).
Proof. done. Qed.

Lemma quiet_throw {A : Type} (e : JsError) : quiet (throw e : M A).
Proof. done. Qed.

Lemma quiet_gets {A : Type} (f : State → A) : quiet (gets f).
Proof. done. Qed.

Lemma quiet_get_prop (v : JsValue) (k : string) : quiet (get_prop v k).
Proof. done. Qed.

Lemma quiet_get_length (v : JsValue) : quiet (get_length v).
Proof. done. Qed.

Lemma quiet_alloc (o : HeapObj) : quiet (alloc o).
Proof. done. Qed.

Lemma quiet_lift {A : Type} (o : outcome A) : quiet (lift o).
Proof. done. Qed.

Lemma quiet_array_push (arr v : JsValue) : quiet (array_push arr v).
Proof.
  intros st. unfold array_push.
  destruct arr as [| | | | | |l]; try done. by destruct (heap st !! l) as [[]|].
Qed.

Lemma quiet_modify (f : State → State) :
  (∀ st, log (f st) = log st ∧ conts (f st) = conts st) → quiet (modify f).
Proof. intros Hf st. apply Hf. Qed.

Lemma quiet_spread (v : JsValue) : quiet (spread v).
Proof.
  destruct v as [| | | | | |l]; try done. apply quiet_bind; [done |].
  intros [[]|]; done.
Qed.

Lemma quiet_map_elems {S : Type} (f : S → JsValue → M (S * JsValue)) (s : S)
    (els : list JsValue) :
  (∀ s x, quiet (f s x)) → quiet (map_elems f s els).
Proof.
  intros Hf. revert s. induction els as [|x xs IH]; intros s; cbn [map_elems].
  - apply quiet_ret.
  - apply quiet_bind; [done |]. intros [s' y].
    apply quiet_bind; [done |]. intros ys. apply quiet_ret.
Qed.

Lemma quiet_array_map {S : Type} (f : S → JsValue → M (S * JsValue)) (s : S)
    (arr : JsValue) :
  (∀ s x, quiet (f s x)) → quiet (array_map f s arr).
Proof.
  intros Hf. destruct arr as [| | | | | |l]; try done.
  apply quiet_bind; [done |]. intros [[ps|els]|]; try done.
  apply quiet_bind; [by apply quiet_map_elems |]. intros ys. apply quiet_alloc.
Qed.

Create HintDb quiet.
#[local] Hint Resolve quiet_ret quiet_throw quiet_gets quiet_get_prop quiet_get_length
  quiet_alloc quiet_lift quiet_array_push quiet_spread : quiet.

(** Split a computation at its binds and close the quiet pieces. *)
Ltac quiet_steps :=
  repeat first
    [ progress intros
    | apply quiet_bind
    | apply quiet_array_map
    | apply quiet_modify; by intros []
    | solve [auto with quiet] ].

Lemma calls_at_most_bind {A B : Type} (e : Effect) (m : M A) (f : A → M B) :
  quiet m → (∀ a, calls_at_most e (f a)) → calls_at_most e (m ≫= f).
Proof.
  intros Hm Hf st. rewrite bind_eq. specialize (Hm st).
  destruct (m st) as [[a|e'] st']; cbn [snd] in *.
  - destruct Hm as [Hl Hc]. destruct (Hf a st') as [Hc' Hl']. rewrite Hc', Hc, <- Hl. done.
  - destruct Hm as [Hl Hc]. split; [done | by left].
Qed.

Lemma calls_at_most_emit (e : Effect) : calls_at_most e (emit e ≫= λ _, mret tt).
Proof. intros st. split; [done | by right]. Qed.

(** ** Pending callbacks *)

Lemma find_cont_elem (h : nat) (ks : list (nat * Cont)) (k : Cont) :
  find_cont h ks = Some k → (h, k) ∈ ks.
Proof.
  induction ks as [|[h' k'] ks IH]; cbn [find_cont]; [done |].
  destruct (Nat.eqb_spec h' h) as [-> | Hne].
  - intros [= ->]. apply list_elem_of_here.
  - intros Hf. apply list_elem_of_further. by apply IH.
Qed.

Lemma elem_of_remove_cont (hk : nat * Cont) (h : nat) (ks : list (nat * Cont)) :
  hk ∈ remove_cont h ks ↔ hk ∈ ks ∧ hk.1 ≠ h.
Proof.
  induction ks as [|[h' k'] ks IH]; cbn [remove_cont].
  - split; [by intros ?%elem_of_nil | by intros [?%elem_of_nil _]].
  - destruct (Nat.eqb_spec h' h) as [-> | Hne].
    + rewrite IH, elem_of_cons. split; [tauto |].
      intros [[-> | Hin] Hh]; [done | tauto].
    + rewrite !elem_of_cons, IH. split; [| tauto].
      intros [-> | [Hin Hh]]; [| tauto]. split; [by left | done].
Qed.

Lemma find_cont_fresh (h : nat) (k : Cont) (ks : list (nat * Cont)) :
  Forall (λ hk, hk.1 ≠ h) ks → find_cont h (ks ++ [(h, k)]) = Some k.
Proof.
  induction 1 as [|[h' k'] ks Hne _ IH]; cbn [find_cont app].
  - by rewrite Nat.eqb_refl.
  - cbn in Hne. by destruct (Nat.eqb_spec h' h).
Qed.

Lemma remove_cont_fresh (h : nat) (k : Cont) (ks : list (nat * Cont)) :
  Forall (λ hk, hk.1 ≠ h) ks → remove_cont h (ks ++ [(h, k)]) = ks.
Proof.
  induction 1 as [|[h' k'] ks Hne _ IH]; cbn [remove_cont app].
  - by rewrite Nat.eqb_refl.
  - cbn in Hne. destruct (Nat.eqb_spec h' h); [done | by rewrite IH].
Qed.

Lemma pending_ok_handles (st : State) (h : nat) :
  pending_ok st → (length (log st) ≤ h)%nat → Forall (λ hk, hk.1 ≠ h) (conts st).
Proof.
  intros [Hks _] Hh. eapply Forall_impl; [done |]. intros hk [Hlt _]. cbn beta. lia.
Qed.

Section FootprintProofs.

Context `{RT : Runtime}.

Lemma quiet_ticket_row (num : JsValue) (data : JsValue) : quiet (ticket_row num data).
Proof. unfold ticket_row. quiet_steps. Qed.

Lemma quiet_editTicket (evt props : JsValue) : quiet (editTicket evt props).
Proof. unfold editTicket. quiet_steps. Qed.

Lemma getTickets_then_calls (dismiss : nat) (res : JsValue) :
  calls_at_most (EDismiss dismiss) (getTickets_then dismiss res).
Proof.
  unfold getTickets_then, call_dismiss.
  repeat (apply calls_at_most_bind; [quiet_steps; apply quiet_ticket_row | intros]).
  apply calls_at_most_emit.
Qed.

Lemma updateTicketList_calls (data : JsValue) :
  calls_at_most added_notice (updateTicketList data).
Proof.
  unfold updateTicketList, notify.
  repeat (apply calls_at_most_bind; [quiet_steps; apply quiet_ticket_row | intros]).
  apply calls_at_most_emit.
Qed.

(** [deleteTicket] either opens the dialog, when [props.row.id] can be
    read, or throws before any call. *)
Lemma deleteTicket_cases (props : JsValue) (st : State) :
  (∃ row id,
     read_prop (heap st) props "row" = Normal row ∧
     read_prop (heap st) row "id" = Normal id ∧
     deleteTicket props st
     = (Normal tt,
        set_conts (conts st ++ [(length (log st), KDialogOk props)])
          (set_log (log st ++ [EDialog id]) st))) ∨
  (∃ e, deleteTicket props st = (Throw e, st)).
Proof.
  unfold deleteTicket, get_prop, q_dialog, emit, register, modify.
  rewrite bind_eq.
  destruct (read_prop (heap st) props "row") as [row|e] eqn:Hrow; [| right; by exists e].
  rewrite bind_eq.
  destruct (read_prop (heap st) row "id") as [id|e] eqn:Hid; [| right; by exists e].
  left. exists row, id. by rewrite bind_eq.
Qed.

(** The [onOk] callback either calls the remote delete with
    [props.row.id], or throws before any call. *)
Lemma deleteTicket_onOk_cases (props : JsValue) (st : State) :
  (∃ row id,
     read_prop (heap st) props "row" = Normal row ∧
     read_prop (heap st) row "id" = Normal id ∧
     deleteTicket_onOk props st
     = (Normal tt,
        set_conts (conts st ++ [(length (log st), KDeleteThen)])
          (set_log (log st ++ [EDelete id]) st))) ∨
  (∃ e, deleteTicket_onOk props st = (Throw e, st)).
Proof.
  unfold deleteTicket_onOk, get_prop, ticketsService_delete, emit, register, modify.
  rewrite bind_eq.
  destruct (read_prop (heap st) props "row") as [row|e] eqn:Hrow; [| right; by exists e].
  rewrite bind_eq.
  destruct (read_prop (heap st) row "id") as [id|e] eqn:Hid; [| right; by exists e].
  left. exists row, id. by rewrite bind_eq.
Qed.

Lemma deleteTicket_eq (props row id : JsValue) (st : State) :
  read_prop (heap st) props "row" = Normal row →
  read_prop (heap st) row "id" = Normal id →
  deleteTicket props st
  = (Normal tt,
     set_conts (conts st ++ [(length (log st), KDialogOk props)])
       (set_log (log st ++ [EDialog id]) st)).
Proof.
  intros Hrow Hid. unfold deleteTicket, get_prop, q_dialog, emit, register, modify.
  by rewrite bind_eq, Hrow, bind_eq, Hid, bind_eq.
Qed.

Lemma deleteTicket_onOk_eq (props row id : JsValue) (st : State) :
  read_prop (heap st) props "row" = Normal row →
  read_prop (heap st) row "id" = Normal id →
  deleteTicket_onOk props st
  = (Normal tt,
     set_conts (conts st ++ [(length (log st), KDeleteThen)])
       (set_log (log st ++ [EDelete id]) st)).
Proof.
  intros Hrow Hid.
  unfold deleteTicket_onOk, get_prop, ticketsService_delete, emit, register, modify.
  by rewrite bind_eq, Hrow, bind_eq, Hid, bind_eq.
Qed.

(** Every event changes the log and the pending callbacks in one of the
    ways of [footprint]. *)
Lemma step_footprint (st : State) (ev : Event) :
  ∃ base extra new,
    footprint st ev base extra new ∧
    log (step st ev) = log st ++ extra ∧
    conts (step st ev) = base ++ new.
Proof.
  assert (Hq : ∀ ev' st', log st' = log st → conts st' = conts st →
            ∃ base extra new, footprint st ev' base extra new ∧
              log st' = log st ++ extra ∧ conts st' = base ++ new).
  { intros ev' st' Hl Hc. exists (conts st), [], []. rewrite !app_nil_r.
    split; [constructor | done]. }
  unfold step. destruct ev as [| evt row | props | data | | h s | b | b | v | o];
    cbn [handle_event].
  - by apply Hq.
  - destruct (quiet_editTicket evt row st). by apply Hq.
  - destruct (deleteTicket_cases props st) as [(row & id & _ & _ & ->) | [e ->]];
      [| by apply Hq].
    exists (conts st), [EDialog id], [(length (log st), KDialogOk props)].
    split; [constructor | done].
  - destruct (updateTicketList_calls data st) as [Hc [Hl | Hl]]; [by apply Hq |].
    exists (conts st), [added_notice], []. rewrite app_nil_r.
    split; [constructor | done].
  - rewrite ticketUpdated_eq.
    exists (conts st), [loading_notice; list_call],
      [(S (length (log st)), KListThen (length (log st)))].
    split; [constructor | done].
  - destruct (find_cont h (conts st)) as [k|] eqn:Hk.
    2:{ rewrite (settle_missing h s st Hk). by apply Hq. }
    rewrite (settle_found h s k st Hk).
    set (st1 := set_conts (remove_cont h (conts st)) st).
    assert (Hd : ∀ st', log st' = log st → conts st' = remove_cont h (conts st) →
              ∃ base extra new, footprint st (EvSettle h s) base extra new ∧
                log st' = log st ++ extra ∧ conts st' = base ++ new).
    { intros st' Hl Hc. exists (remove_cont h (conts st)), [], []. rewrite !app_nil_r.
      split; [constructor | done]. }
    destruct k as [m | props |], s as [v | | |]; cbn [run_cont]; try by apply Hd.
    + destruct (getTickets_then_calls m v st1) as [Hc [Hl | Hl]]; [by apply Hd |].
      exists (remove_cont h (conts st)), [EDismiss m], []. rewrite app_nil_r.
      split; [by constructor | done].
    + destruct (deleteTicket_onOk_cases props st1) as [(row & id & _ & _ & ->) | [e ->]];
        [| by apply Hd].
      exists (remove_cont h (conts st)), [EDelete id], [(length (log st), KDeleteThen)].
      split; [by econstructor | done].
    + unfold deleteTicket_then. rewrite getTickets_eq.
      exists (remove_cont h (conts st)), [loading_notice; list_call],
        [(S (length (log st)), KListThen (length (log st)))].
      split; [by constructor | done].
  - by apply Hq.
  - by apply Hq.
  - by apply Hq.
  - by apply Hq.
Qed.

(** *** Invariants of the event loop *)

(** The calls and registrations of a step keep the pending callbacks in
    order. *)
Lemma pending_ok_step (st : State) (ev : Event) :
  pending_ok st → pending_ok (step st ev).
Proof.
  intros [Hks Hdis].
  destruct (step_footprint st ev) as (base & extra & new & Hfp & Hl & Hc).
  assert (Hbase : ∀ hk, hk ∈ base → hk ∈ conts st).
  { intros hk Hin. inversion Hfp; subst; try done;
      by apply elem_of_remove_cont in Hin as [Hin _]. }
  assert (Hne : ∀ hk h, hk ∈ base → base = remove_cont h (conts st) → hk.1 ≠ h).
  { intros hk h Hin Hb. rewrite Hb in Hin. by apply elem_of_remove_cont in Hin as [_ ?]. }
  assert (Hextra : ∀ m, EDismiss m ∈ extra →
            ∃ h v, ev = EvSettle h (Fulfilled v) ∧ base = remove_cont h (conts st) ∧
                   (h, KListThen m) ∈ conts st).
  { intros m Hin. inversion Hfp; subst;
      repeat (apply elem_of_cons in Hin as [Hin | Hin]; try done);
      try (by apply elem_of_nil in Hin).
    simplify_eq. eexists _, _. split; [done |]. split; [done |]. by apply find_cont_elem. }
  rewrite Forall_forall in Hks.
  split.
  - rewrite Hc, Hl. apply Forall_app. split.
    + apply Forall_forall. intros hk Hin. pose proof (Hbase hk Hin) as Hin'.
      destruct (Hks hk Hin') as [Hlt Hload]. split; [rewrite length_app; lia |].
      intros m Hm. destruct (Hload m Hm) as (Hh & Hn & Hlc & Hnd).
      split; [done |]. rewrite !lookup_app_l by lia. split; [done |]. split; [done |].
      rewrite not_elem_of_app. split; [done |]. intros Hin2.
      destruct (Hextra m Hin2) as (h & v & -> & Hb & Hin3).
      destruct (Hks _ Hin3) as [_ Hload3]. destruct (Hload3 m eq_refl) as [Hh3 _].
      cbn in Hh3. eapply Hne; [done | done | congruence].
    + assert (Hload : Forall
                (λ hk : nat * Cont,
                   hk.1 < length (log st ++ [loading_notice; list_call]) ∧
                   ∀ m, hk.2 = KListThen m →
                        hk.1 = S m ∧
                        (log st ++ [loading_notice; list_call]) !! m = Some loading_notice ∧
                        (log st ++ [loading_notice; list_call]) !! (S m) = Some list_call ∧
                        EDismiss m ∉ log st ++ [loading_notice; list_call])
                [(S (length (log st)), KListThen (length (log st)))]).
      { constructor; [| constructor]. cbn [fst snd].
        split; [rewrite length_app; cbn; lia |]. intros m [= <-].
        split; [done |]. split; [by apply list_lookup_middle |].
        split.
        { replace (log st ++ [loading_notice; list_call])
            with ((log st ++ [loading_notice]) ++ [list_call]) by (by rewrite <- app_assoc).
          apply list_lookup_middle. rewrite length_app. cbn. lia. }
        rewrite not_elem_of_app. split; [intros Hd%Hdis; lia |].
        intros Hd. repeat (apply elem_of_cons in Hd as [Hd | Hd]; try done).
        by apply elem_of_nil in Hd. }
      inversion Hfp; subst; try done;
        first [ by constructor
              | (constructor; [| constructor]); cbn [fst snd];
                (split; [rewrite length_app; cbn; lia | done]) ].
  - intros m. rewrite Hl, elem_of_app, length_app. intros [Hin | Hin].
    + apply Hdis in Hin. lia.
    + destruct (Hextra m Hin) as (h & v & -> & Hb & Hin3).
      destruct (Hks _ Hin3) as [Hlt Hload3]. destruct (Hload3 m eq_refl) as [Hh3 _].
      cbn in Hlt, Hh3. lia.
Qed.

Lemma init_eq :
  init = mkState [HObject []; HArray []] (VRef 0) (VRef 1) false false
           [loading_notice; list_call] [(1, KListThen 0)].
Proof. reflexivity. Qed.

Lemma pending_ok_init : pending_ok init.
Proof.
  rewrite init_eq. unfold pending_ok. cbn [log conts length].
  split.
  - constructor; [| constructor]. cbn. split; [lia |].
    intros m [= <-]. do 3 (split; [done |]).
    intros Hd. repeat (apply elem_of_cons in Hd as [Hd | Hd]; try done).
    by apply elem_of_nil in Hd.
  - intros m Hd. cbn in Hd. repeat (apply elem_of_cons in Hd as [Hd | Hd]; try done).
    by apply elem_of_nil in Hd.
Qed.

Lemma pending_ok_run (evs : list Event) (st : State) :
  pending_ok st → pending_ok (run evs st).
Proof.
  revert st. induction evs as [|ev evs IH]; intros st Hst; [done |].
  apply IH. by apply pending_ok_step.
Qed.

(** Once no callback holds the dismiss function of a notification, no
    step dismisses it. *)
Lemma orphaned_step (n : nat) (st : State) (ev : Event) :
  orphaned n st → orphaned n (step st ev).
Proof.
  intros (Hn & Hnd & Hks).
  destruct (step_footprint st ev) as (base & extra & new & Hfp & Hl & Hc).
  rewrite Forall_forall in Hks.
  assert (Hbase : ∀ hk, hk ∈ base → hk ∈ conts st).
  { intros hk Hin. inversion Hfp; subst; try done;
      by apply elem_of_remove_cont in Hin as [Hin _]. }
  unfold orphaned. rewrite Hl, Hc, length_app, not_elem_of_app, Forall_app.
  split; [lia |]. split; [split; [done |] |].
  - intros Hin. inversion Hfp; subst;
      repeat (apply elem_of_cons in Hin as [Hin | Hin]; try done);
      try (by apply elem_of_nil in Hin).
    simplify_eq. eapply Hks; [by apply find_cont_elem | done].
  - split.
    + apply Forall_forall. intros hk Hin. by apply Hks, Hbase.
    + inversion Hfp; subst; try (by apply Forall_nil_2);
        (constructor; [| constructor]); cbn [snd]; first [ done | intros [= Heq]; lia ].
Qed.

Lemma orphaned_run (n : nat) (evs : list Event) (st : State) :
  orphaned n st → orphaned n (run evs st).
Proof.
  revert st. induction evs as [|ev evs IH]; intros st Hst; [done |].
  apply IH. by apply orphaned_step.
Qed.

(** A step calls the remote delete at most once, and only when it is the
    acceptance of a dialog. *)
Lemma deletes_step (st : State) (ev : Event) :
  (length (deletes (log (step st ev)))
   ≤ length (deletes (log st)) + (if is_accept ev then 1 else 0))%nat.
Proof.
  destruct (step_footprint st ev) as (base & extra & new & Hfp & Hl & Hc).
  rewrite Hl. unfold deletes. rewrite omap_app, length_app.
  inversion Hfp; subst; cbn; lia.
Qed.

Lemma deletes_run (evs : list Event) (st : State) :
  (length (deletes (log (run evs st))) ≤ length (deletes (log st)) + accepted evs)%nat.
Proof.
  revert st. induction evs as [|ev evs IH]; intros st; [cbn; lia |].
  cbn [run foldl]. specialize (IH (step st ev)). unfold run in IH.
  pose proof (deletes_step st ev) as Hs. unfold accepted in *. cbn [List.filter].
  destruct (is_accept ev); cbn [length]; lia.
Qed.

(** C8: [deleteTicket] on cell props whose row has id [id] only opens the
    confirmation dialog: heap, form, row list and flags stay as they are and
    the remote delete is not called.  Cancelling the dialog drops the
    callback and calls nothing.  Accepting it calls the remote delete with
    [id] and nothing else, the row list still untouched; the reload (loading
    notification and list call) starts when that call is fulfilled, and not
    at all if it is rejected.  Over any run of events, the remote delete is
    called at most once per accepted dialog. *)
Theorem deleteTicket_gated (props row id : JsValue) (st : State) :
  pending_ok st →
  read_prop (heap st) props "row" = Normal row →
  read_prop (heap st) row "id" = Normal id →
  let d := length (log st) in
  let st1 :=
    set_conts (conts st ++ [(d, KDialogOk props)]) (set_log (log st ++ [EDialog id]) st) in
  let st2 :=
    set_conts (conts st ++ [(S d, KDeleteThen)])
      (set_log (log st ++ [EDialog id; EDelete id]) st) in
  deleteTicket props st = (Normal tt, st1) ∧
  (heap st1 = heap st ∧ ticket st1 = ticket st ∧ tickets st1 = tickets st ∧
   showaddTicketDialog st1 = showaddTicketDialog st ∧
   showUpdateTicketDialog st1 = showUpdateTicketDialog st ∧
   deletes (log st1) = deletes (log st)) ∧
  step st1 (EvSettle d DialogCancel) = set_log (log st ++ [EDialog id]) st ∧
  step st1 (EvSettle d DialogOk) = st2 ∧
  (heap st2 = heap st ∧ tickets st2 = tickets st ∧
   deletes (log st2) = deletes (log st) ++ [id]) ∧
  (∀ v, step st2 (EvSettle (S d) (Fulfilled v))
        = set_conts (conts st ++ [(d + 3, KListThen (d + 2))])
            (set_log (log st ++ [EDialog id; EDelete id; loading_notice; list_call]) st)) ∧
  step st2 (EvSettle (S d) Rejected) = set_log (log st ++ [EDialog id; EDelete id]) st ∧
  (∀ evs s0,
     (length (deletes (log (run evs s0))) ≤ length (deletes (log s0)) + accepted evs)%nat).
Proof.
  intros Hok Hrow Hid d st1 st2.
  pose proof (pending_ok_handles st d Hok (le_n _)) as Hd.
  pose proof (pending_ok_handles st (S d) Hok (le_S _ _ (le_n _))) as HSd.
  split.
  { by apply (deleteTicket_eq props row id). }
  split.
  { subst st1. norm_state. repeat split. unfold deletes. by rewrite omap_app, app_nil_r. }
  split.
  { unfold step. cbn [handle_event]. rewrite (settle_found d _ (KDialogOk props)).
    - subst st1. cbn [run_cont conts set_conts]. rewrite ret_eq, remove_cont_fresh by done.
      by destruct st.
    - subst st1. cbn [conts set_conts]. by apply find_cont_fresh. }
  split.
  { unfold step. cbn [handle_event]. rewrite (settle_found d _ (KDialogOk props)).
    - subst st1 st2. cbn [run_cont conts set_conts]. rewrite remove_cont_fresh by done.
      rewrite (deleteTicket_onOk_eq props row id) by done. by norm_state.
    - subst st1. cbn [conts set_conts]. by apply find_cont_fresh. }
  split.
  { subst st2. norm_state. repeat split. unfold deletes. by rewrite omap_app. }
  split.
  { intros v. unfold step. cbn [handle_event]. rewrite (settle_found (S d) _ KDeleteThen).
    - subst st2. cbn [run_cont conts set_conts]. rewrite remove_cont_fresh by done.
      unfold deleteTicket_then. rewrite getTickets_eq. norm_state. subst d.
      cbn [snd]. by replace (S (length (log st) + 2)) with (length (log st) + 3) by lia.
    - subst st2. cbn [conts set_conts]. by apply find_cont_fresh. }
  split.
  { unfold step. cbn [handle_event]. rewrite (settle_found (S d) _ KDeleteThen).
    - subst st2. cbn [run_cont conts set_conts]. rewrite ret_eq, remove_cont_fresh by done.
      by destruct st.
    - subst st2. cbn [conts set_conts]. by apply find_cont_fresh. }
  intros evs s0. apply deletes_run.
Qed.

(** C9: when the list call of a pending load is rejected, nothing runs:
    heap, row list and log are as before (no list call is made again, the
    notification is not dismissed) and only the callback is dropped.  The
    loading notification of that load was never dismissed before and is not
    dismissed by any later run of events. *)
Theorem list_rejection_unhandled (p n : nat) (st : State) :
  pending_ok st →
  find_cont p (conts st) = Some (KListThen n) →
  let st1 := step st (EvSettle p Rejected) in
  handle_event (EvSettle p Rejected) st = (Normal tt, st1) ∧
  st1 = set_conts (remove_cont p (conts st)) st ∧
  (heap st1 = heap st ∧ tickets st1 = tickets st ∧ log st1 = log st) ∧
  log st !! n = Some loading_notice ∧
  log st !! p = Some list_call ∧
  (EDismiss n ∉ log st) ∧
  (∀ evs, EDismiss n ∉ log (run evs st1)).
Proof.
  intros Hok Hp st1.
  assert (Hst1 : handle_event (EvSettle p Rejected) st
                 = (Normal tt, set_conts (remove_cont p (conts st)) st)).
  { cbn [handle_event]. by rewrite (settle_found p _ _ st Hp). }
  assert (Est1 : st1 = set_conts (remove_cont p (conts st)) st).
  { subst st1. unfold step. by rewrite Hst1. }
  destruct Hok as [Hks Hdis]. rewrite Forall_forall in Hks.
  destruct (Hks _ (find_cont_elem _ _ _ Hp)) as [Hlt Hload].
  destruct (Hload n eq_refl) as (Hpn & Hn & Hlc & Hnd). cbn [fst] in Hlt, Hpn.
  split; [by rewrite Est1 |]. split; [done |].
  split; [by rewrite Est1 |]. split; [done |]. split; [by rewrite Hpn |].
  split; [done |].
  intros evs. apply (orphaned_run n evs st1). rewrite Est1.
  split; [cbn [log set_conts]; lia |]. split; [done |].
  cbn [conts set_conts]. apply Forall_forall. intros hk [Hin Hne]%elem_of_remove_cont Hk.
  destruct (Hks _ Hin) as [_ Hload']. destruct (Hload' n Hk) as [Hh _]. congruence.
Qed.

End FootprintProofs.

Lemma deleteTicket_gated_witness :
  let st := delete_state in
  let props := VRef 9 in
  let id := VStr "t1" in
  let d := length (log st) in
  let st1 :=
    set_conts (conts st ++ [(d, KDialogOk props)]) (set_log (log st ++ [EDialog id]) st) in
  let st2 :=
    set_conts (conts st ++ [(S d, KDeleteThen)])
      (set_log (log st ++ [EDialog id; EDelete id]) st) in
  deleteTicket props st = (Normal tt, st1) ∧
  (heap st1 = heap st ∧ ticket st1 = ticket st ∧ tickets st1 = tickets st ∧
   showaddTicketDialog st1 = showaddTicketDialog st ∧
   showUpdateTicketDialog st1 = showUpdateTicketDialog st ∧
   deletes (log st1) = deletes (log st)) ∧
  step st1 (EvSettle d DialogCancel) = set_log (log st ++ [EDialog id]) st ∧
  step st1 (EvSettle d DialogOk) = st2 ∧
  (heap st2 = heap st ∧ tickets st2 = tickets st ∧
   deletes (log st2) = deletes (log st) ++ [id]) ∧
  (∀ v, step st2 (EvSettle (S d) (Fulfilled v))
        = set_conts (conts st ++ [(d + 3, KListThen (d + 2))])
            (set_log (log st ++ [EDialog id; EDelete id; loading_notice; list_call]) st)) ∧
  step st2 (EvSettle (S d) Rejected) = set_log (log st ++ [EDialog id; EDelete id]) st ∧
  (∀ evs s0,
     (length (deletes (log (run evs s0))) ≤ length (deletes (log s0)) + accepted evs)%nat).
Proof.
  apply (deleteTicket_gated (VRef 9) (VRef 7) (VStr "t1") delete_state).
  - apply pending_ok_run, pending_ok_init.
  - reflexivity.
  - reflexivity.
Defined.

(** [deleteTicket] expects the cell props, not the row: handed the loaded
    row itself it throws while building the message, before any dialog. *)
Example deleteTicket_on_bare_row :
  deleteTicket (VRef 7) delete_state = (Throw TypeError, delete_state).
Proof. reflexivity. Qed.

Lemma list_rejection_unhandled_witness :
  let st1 := step init (EvSettle 1 Rejected) in
  handle_event (EvSettle 1 Rejected) init = (Normal tt, st1) ∧
  st1 = set_conts (remove_cont 1 (conts init)) init ∧
  (heap st1 = heap init ∧ tickets st1 = tickets init ∧ log st1 = log init) ∧
  log init !! 0 = Some loading_notice ∧
  log init !! 1 = Some list_call ∧
  (EDismiss 0 ∉ log init) ∧
  (∀ evs, EDismiss 0 ∉ log (run evs st1)).
Proof.
  apply (list_rejection_unhandled 1 0 init).
  - apply pending_ok_init.
  - reflexivity.
Defined.

(** After the rejected load the row list is still the empty array of
    [setup], and a later fulfilment of the same call changes nothing. *)
Example rejected_load_keeps_rows :
  let st1 := step init (EvSettle 1 Rejected) in
  tickets st1 = VRef 1 ∧ heap st1 !! 1 = Some (HArray []) ∧ log st1 = log init ∧
  step st1 (EvSettle 1 (Fulfilled VUndefined)) = st1.
Proof. repeat split; reflexivity. Qed.

(** * Further properties *)

(** ** The filter *)

Lemma append_assoc (a b c : string) : (a +:+ b) +:+ c = a +:+ (b +:+ c).
Proof.
  induction a as [|x a IH]; [done |].
  change ((String x (a +:+ b)) +:+ c = String x (a +:+ (b +:+ c))).
  change (String x ((a +:+ b) +:+ c) = String x (a +:+ (b +:+ c))).
  by rewrite IH.
Qed.

Lemma substring_trans (t1 t2 s : string) :
  substring t1 t2 → substring t2 s → substring t1 s.
Proof.
  intros (c & d & ->) (a & b & ->). exists (a +:+ c), (d +:+ b).
  by rewrite !append_assoc.
Qed.

Lemma filter_ext_elem {A : Type} (P Q : A → Prop) `{!∀ x, Decision (P x)}
    `{!∀ x, Decision (Q x)} (l : list A) :
  (∀ x, x ∈ l → P x ↔ Q x) → filter P l = filter Q l.
Proof.
  induction l as [|x l IH]; intros HPQ; [done |].
  rewrite !filter_cons, IH by (intros y Hy; apply HPQ; by right).
  destruct (decide (P x)) as [HP | HP], (decide (Q x)) as [HQ | HQ]; try done;
    exfalso; apply (HPQ x (list_elem_of_here _ _)) in HP || apply (HPQ x (list_elem_of_here _ _)) in HQ;
    done.
Qed.

(** ** Heaps whose references all point inside *)

Lemma read_prop_throws (h : list HeapObj) (v : JsValue) (k : string) (e : JsError) :
  allocated h v → read_prop h v k = Throw e → e = TypeError.
Proof.
  destruct v as [| | | | | |l]; cbn; try congruence. intros Hl.
  destruct (h !! l) as [[]|] eqn:El; try congruence.
  apply lookup_ge_None in El. lia.
Qed.

Lemma read_length_throws (h : list HeapObj) (v : JsValue) (e : JsError) :
  allocated h v → read_length h v = Throw e → e = TypeError.
Proof.
  destruct v as [| | | | | |l]; cbn; try congruence. intros Hl.
  destruct (h !! l) as [[]|] eqn:El; try congruence.
  apply lookup_ge_None in El. lia.
Qed.

(** A value that has a length can be indexed. *)
Lemma read_index_normal (h : list HeapObj) (v len : JsValue) (i : nat) :
  read_length h v = Normal len → ∃ r, read_index h v i = Normal r.
Proof.
  destruct v as [| | | | | |l]; cbn; try done; try by eexists.
  destruct (h !! l) as [[]|]; try done; by eexists.
Qed.

Lemma lookup_prop_allocated (h : list HeapObj) (k : string) (ps : list (string * JsValue)) :
  Forall (λ kv : string * JsValue, allocated h kv.2) ps → allocated h (lookup_prop k ps).
Proof.
  induction 1 as [|[k' v] ps Hv _ IH]; cbn [lookup_prop]; [done |].
  by destruct (String.eqb k k').
Qed.

Lemma closed_lookup (h : list HeapObj) (l : nat) (o : HeapObj) :
  closed h → h !! l = Some o →
  match o with
  | HObject ps => Forall (λ kv : string * JsValue, allocated h kv.2) ps
  | HArray els => Forall (allocated h) els
  end.
Proof. intros Hh Hl. by apply (Forall_lookup_1 _ _ _ _ Hh Hl). Qed.

Lemma read_prop_allocated (h : list HeapObj) (v : JsValue) (k : string) (x : JsValue) :
  closed h → read_prop h v k = Normal x → allocated h x.
Proof.
  intros Hh. destruct v as [| | | | | |l]; cbn; try done; try by intros [= <-].
  destruct (h !! l) as [[ps|els]|] eqn:El; try done; intros [= <-]; [| done].
  apply lookup_prop_allocated, (closed_lookup h l _ Hh El).
Qed.

Lemma read_index_allocated (h : list HeapObj) (v : JsValue) (i : nat) (r : JsValue) :
  closed h → read_index h v i = Normal r → allocated h r.
Proof.
  intros Hh. destruct v as [| | | | | |l]; cbn; try done; try by intros [= <-].
  - intros [= <-]. by destruct (String.get i s).
  - destruct (h !! l) as [[ps|els]|] eqn:El; try done; intros [= <-].
    + apply lookup_prop_allocated, (closed_lookup h l _ Hh El).
    + pose proof (closed_lookup h l _ Hh El) as Hels. cbn in Hels.
      destruct (els !! i) as [r|] eqn:Ei; [| done].
      by apply (Forall_lookup_1 _ _ _ _ Hels Ei).
Qed.

Lemma visited_length (h : list HeapObj) (v len : JsValue) :
  read_length h v = Normal len → length (visited h v) = turns len.
Proof. intros Hlen. unfold visited. by rewrite Hlen, length_fmap, length_seq. Qed.

Lemma visited_lookup (h : list HeapObj) (v : JsValue) (i : nat) (r : JsValue) :
  visited h v !! i = Some r → read_index h v i = Normal r.
Proof.
  unfold visited. destruct (read_length h v) as [len|e] eqn:Hlen; [| done].
  intros Hi. apply list_lookup_fmap_Some in Hi as (j & -> & Hj).
  apply lookup_seq in Hj as [-> _]. cbn [Nat.add].
  by destruct (read_index_normal h v len i Hlen) as [r ->].
Qed.

Lemma visited_allocated (h : list HeapObj) (v : JsValue) :
  closed h → Forall (allocated h) (visited h v).
Proof.
  intros Hh. apply Forall_lookup_2. intros i r Hi.
  apply (read_index_allocated h v i r Hh), visited_lookup, Hi.
Qed.

(** On an array, the loop visits the elements. *)
Lemma visited_array (h : list HeapObj) (l : nat) (els : list JsValue) :
  h !! l = Some (HArray els) → visited h (VRef l) = els.
Proof.
  intros Hl. unfold visited. cbn [read_length read_index]. rewrite Hl.
  cbn [turns]. rewrite Nat2Z.id. apply list_eq. intros i.
  rewrite list_lookup_fmap. destruct (decide (i < length els)) as [Hlt | Hge].
  - rewrite lookup_seq_lt by done. cbn.
    by destruct (lookup_lt_is_Some_2 els i Hlt) as [r ->].
  - rewrite lookup_seq_ge, lookup_ge_None_2 by lia. done.
Qed.

Section FilterFurther.

Context `{RT : Runtime}.

(** What [scan] pushes is taken from the values it goes through, in their
    order. *)
Lemma scan_sublist (h : list HeapObj) (terms : string) (rs acc : list JsValue) :
  ∃ kept, snd (scan h terms rs acc) = acc ++ kept ∧ sublist kept rs.
Proof.
  revert acc. induction rs as [|r rs IH]; intros acc; cbn [scan].
  - exists []. by rewrite app_nil_r.
  - destruct (row_verdict h terms r) as [[|]|e].
    + destruct (IH (acc ++ [r])) as (kept & -> & Hsub). exists (r :: kept).
      split; [by rewrite <- app_assoc | by apply sublist_skip].
    + destruct (IH acc) as (kept & -> & Hsub). exists kept.
      split; [done | by apply sublist_cons].
    + exists []. split; [by rewrite app_nil_r | apply sublist_nil_l].
Qed.

(** [filterData] on any value that has a plain length: [scan] over the
    values found at the indices below it. *)
Lemma filterData_visited (st : State) (rows len : JsValue) (q : string) :
  closed (heap st) → allocated (heap st) rows → plain_length (heap st) rows →
  read_length (heap st) rows = Normal len →
  filterData rows q st
  = (match fst (scan (heap st) (toLowerCase q) (visited (heap st) rows) []) with
     | Normal _ => Normal (VRef (length (heap st)))
     | Throw e => Throw e
     end,
     set_heap
       (heap st ++ [HArray (snd (scan (heap st) (toLowerCase q) (visited (heap st) rows) []))])
       st).
Proof.
  intros Hh Hrows Hplain Hlen.
  pose proof (visited_length _ _ _ Hlen) as Hvl.
  apply (filterData_items st rows len); try done.
  - intros i. rewrite Hvl. apply less_than_turns.
    unfold plain_length in Hplain. rewrite Hlen in Hplain. by destruct len.
  - lia.
  - apply visited_lookup.
  - by apply visited_allocated.
Qed.

(** X1: on a heap whose references all point inside it, and for any value
    of [rows] whose length is not itself a string or an object (an array, a
    string, a number, a boolean, undefined, null, an object without a
    length), [filterData] returns the array it has filled or throws a
    [TypeError], and it leaves every existing cell and every other part of
    the state as it was: the state after the call is the state before with
    one more cell, the array being filled, which holds some of the values
    found at the indices of [rows], in their order. *)
Theorem filterData_only_adds_result (rows : JsValue) (q : string) (st : State) :
  closed (heap st) → allocated (heap st) rows → plain_length (heap st) rows →
  ∃ acc,
    snd (filterData rows q st) = set_heap (heap st ++ [HArray acc]) st ∧
    sublist acc (visited (heap st) rows) ∧
    (fst (filterData rows q st) = Normal (VRef (length (heap st))) ∨
     fst (filterData rows q st) = Throw TypeError).
Proof.
  intros Hh Hrows Hplain.
  destruct (read_length (heap st) rows) as [len|e] eqn:Hlen.
  - rewrite (filterData_visited st rows len q Hh Hrows Hplain Hlen). cbn [fst snd].
    destruct (scan_sublist (heap st) (toLowerCase q) (visited (heap st) rows) [])
      as (kept & Hkept & Hsub).
    exists kept. split; [by rewrite Hkept |]. split; [done |].
    destruct (scan_throws (heap st) q (visited (heap st) rows) []
                (visited_allocated _ _ Hh)) as [[_ ->] | [_ ->]]; [by right | by left].
  - exists []. pose proof (read_length_throws _ _ _ Hrows Hlen) as ->.
    assert (Hcall : filterData rows q st
                    = (Throw TypeError, set_heap (heap st ++ [HArray []]) st)).
    { unfold filterData. rewrite bind_eq. unfold alloc at 1.
      rewrite bind_eq. unfold get_length at 1. cbn [heap set_heap].
      by rewrite read_length_app, Hlen. }
    rewrite Hcall. cbn [fst snd]. split; [done |]. split; [apply sublist_nil_l | by right].
Qed.

Lemma string_field_app (h x : list HeapObj) (r : JsValue) (k : string) :
  allocated h r → string_field (h ++ x) r k = string_field h r k.
Proof. intros Hr. unfold string_field. by rewrite read_prop_app. Qed.

Lemma has_string_fields_app (h x : list HeapObj) (r : JsValue) :
  has_string_fields h r → has_string_fields (h ++ x) r.
Proof.
  intros Hr. pose proof (has_string_fields_allocated h r Hr) as Ha.
  unfold has_string_fields. by rewrite !string_field_app.
Qed.

Lemma row_matches_app (h x : list HeapObj) (q : string) (r : JsValue) :
  allocated h r → row_matches (h ++ x) q r = row_matches h q r.
Proof. intros Hr. unfold row_matches. by rewrite !string_field_app. Qed.

(** X2: typing more never adds rows.  On rows with both string fields, if
    the lowered query [q1] occurs in the lowered query [q2], the rows kept
    for [q2] are a subsequence of the rows kept for [q1]. *)
Theorem filterData_narrows (st : State) (a : nat) (rows : list JsValue) (q1 q2 : string) :
  heap st !! a = Some (HArray rows) →
  Forall (has_string_fields (heap st)) rows →
  substring (toLowerCase q1) (toLowerCase q2) →
  ∃ kept1 kept2,
    filterData (VRef a) q1 st
    = (Normal (VRef (length (heap st))), set_heap (heap st ++ [HArray kept1]) st) ∧
    filterData (VRef a) q2 st
    = (Normal (VRef (length (heap st))), set_heap (heap st ++ [HArray kept2]) st) ∧
    sublist kept2 kept1.
Proof.
  intros Ha Hall Hsub. do 2 eexists.
  split; [by apply filterData_string_fields |].
  split; [by apply filterData_string_fields |].
  rewrite <- (list_filter_filter_l (λ r, row_matches (heap st) q2 r = true)
                (λ r, row_matches (heap st) q1 r = true)); [apply sublist_filter |].
  intros r. unfold row_matches.
  destruct (string_field (heap st) r "subject") as [s|]; [| done].
  destruct (string_field (heap st) r "description") as [d|]; [| done].
  rewrite !orb_true_iff, !includes_spec.
  intros [H | H]; [left | right]; by eapply substring_trans.
Qed.

(** X3: filtering the result of a filter.  On rows with both string fields,
    [filterData] applied to the array returned by [filterData(rows, q1)]
    with query [q2] returns the rows that match both queries, in the
    original order, whichever of the two queries comes first. *)
Theorem filterData_twice (st : State) (a : nat) (rows : list JsValue) (q1 q2 : string) :
  heap st !! a = Some (HArray rows) →
  Forall (has_string_fields (heap st)) rows →
  let both :=
    filter (λ r, row_matches (heap st) q1 r = true ∧ row_matches (heap st) q2 r = true) rows in
  ∃ kept1 kept2,
    let st1 := snd (filterData (VRef a) q1 st) in
    let st2 := snd (filterData (VRef a) q2 st) in
    fst (filterData (VRef a) q1 st) = Normal (VRef (length (heap st))) ∧
    heap st1 = heap st ++ [HArray kept1] ∧
    filterData (VRef (length (heap st))) q2 st1
    = (Normal (VRef (S (length (heap st)))), set_heap (heap st1 ++ [HArray both]) st1) ∧
    fst (filterData (VRef a) q2 st) = Normal (VRef (length (heap st))) ∧
    heap st2 = heap st ++ [HArray kept2] ∧
    filterData (VRef (length (heap st))) q1 st2
    = (Normal (VRef (S (length (heap st)))), set_heap (heap st2 ++ [HArray both]) st2).
Proof.
  intros Ha Hall both.
  assert (Hone : ∀ qa qb,
    let sta := snd (filterData (VRef a) qa st) in
    fst (filterData (VRef a) qa st) = Normal (VRef (length (heap st))) ∧
    heap sta = heap st ++ [HArray (filter (λ r, row_matches (heap st) qa r = true) rows)] ∧
    filterData (VRef (length (heap st))) qb sta
    = (Normal (VRef (S (length (heap st)))),
       set_heap
         (heap sta ++
            [HArray (filter (λ r, row_matches (heap st) qb r = true ∧
                                  row_matches (heap st) qa r = true) rows)])
         sta)).
  { intros qa qb sta. subst sta.
    rewrite (filterData_string_fields st a rows qa Ha Hall). cbn [fst snd heap set_heap].
    split; [done |]. split; [done |].
    set (ka := filter (λ r, row_matches (heap st) qa r = true) rows).
    rewrite (filterData_string_fields _ (length (heap st)) ka qb); cbn [heap set_heap].
    - rewrite length_app, Nat.add_1_r. do 5 f_equal.
      rewrite <- list_filter_filter. apply filter_ext_elem.
      intros r [_ Hr]%list_elem_of_filter. rewrite row_matches_app; [done |].
      apply has_string_fields_allocated. rewrite Forall_forall in Hall. by apply Hall.
    - by apply list_lookup_middle.
    - apply Forall_forall. intros r [_ Hr]%list_elem_of_filter.
      apply has_string_fields_app. rewrite Forall_forall in Hall. by apply Hall. }
  do 2 eexists. cbn zeta.
  destruct (Hone q1 q2) as (H1 & H2 & H3). destruct (Hone q2 q1) as (H4 & H5 & H6).
  split; [done |]. split; [done |].
  split; [| done].
  rewrite H3. do 5 f_equal. apply list_filter_iff. tauto.
Qed.

End FilterFurther.

(** ** Outcomes of the handlers on any input *)

Lemma read_prop_uniform (h : list HeapObj) (v : JsValue) (k : string) (a : JsValue) :
  read_prop h v k = Normal a → ∀ k', read_prop h v k' = Normal (field h v k').
Proof.
  intros Hk k'. unfold field. destruct v as [| | | | | |l]; cbn in *; try done.
  by destruct (h !! l) as [[]|].
Qed.

Lemma read_prop_throw_uniform (h : list HeapObj) (v : JsValue) (k : string) (e : JsError) :
  read_prop h v k = Throw e → ∀ k', read_prop h v k' = Throw e.
Proof.
  intros Hk k'. destruct v as [| | | | | |l]; cbn in *; try done.
  by destruct (h !! l) as [[]|].
Qed.

Lemma read_prop_normal_app (h x : list HeapObj) (v : JsValue) (k : string) (a : JsValue) :
  read_prop h v k = Normal a → read_prop (h ++ x) v k = Normal a.
Proof.
  intros Hk. rewrite read_prop_app; [done |].
  destruct v as [| | | | | |l]; cbn in *; try done.
  destruct (h !! l) eqn:El; [by apply lookup_lt_Some in El | done].
Qed.

(** ** What can be spread *)

Lemma chars_length (s : string) : length (chars s) = String.length s.
Proof. induction s as [|c s IH]; cbn; [done | by rewrite IH]. Qed.

Lemma elements_length (h : list HeapObj) (v : JsValue) (old : list JsValue) :
  elements h v = Some old → read_length h v = Normal (VNum (Z.of_nat (length old))).
Proof.
  destruct v as [| | | | | s |l]; cbn; try done.
  - intros [= <-]. by rewrite chars_length.
  - destruct (h !! l) as [[]|]; try done. by intros [= <-].
Qed.

Lemma elements_app (h x : list HeapObj) (v : JsValue) (old : list JsValue) :
  elements h v = Some old → elements (h ++ x) v = Some old.
Proof.
  destruct v as [| | | | | s |l]; cbn; try done.
  destruct (h !! l) as [[]|] eqn:El; try done. intros [= <-].
  rewrite lookup_app_l; [by rewrite El | by apply lookup_lt_Some in El].
Qed.

Lemma elements_alloc_app (h x : list HeapObj) (v : JsValue) :
  allocated h v → elements (h ++ x) v = elements h v.
Proof.
  destruct v as [| | | | | s |l]; cbn; try done. intros Hl. by rewrite lookup_app_l.
Qed.

Lemma spread_elements (v : JsValue) (old : list JsValue) (st : State) :
  elements (heap st) v = Some old → spread v st = (Normal old, st).
Proof.
  destruct v as [| | | | | s |l]; cbn [elements spread]; try done.
  - by intros [= <-].
  - intros Hl. rewrite bind_eq. unfold gets.
    destruct (heap st !! l) as [[]|]; try done. by injection Hl as <-.
Qed.

(** A value that has a length and is neither an array nor a string cannot
    be spread. *)
Lemma spread_not_iterable (h x : list HeapObj) (v len : JsValue) (st : State) :
  read_length h v = Normal len → elements h v = None → heap st = h ++ x →
  spread v st = (Throw TypeError, st).
Proof.
  intros Hlen Hel Hh. destruct v as [| | | | | s |l]; cbn in *; try done.
  rewrite bind_eq. unfold gets. rewrite Hh.
  destruct (h !! l) as [[ps|els]|] eqn:El; try done.
  rewrite lookup_app_l, El; [done | by apply lookup_lt_Some in El].
Qed.

Section OutcomeProofs.

Context `{RT : Runtime}.

(** The row literal on any record: it throws at the first read, or builds
    the row. *)
Lemma ticket_row_cases (num : Z) (data : JsValue) (st : State) :
  (∃ e, ticket_row (VNum num) data st = (Throw e, st)) ∨
  ticket_row (VNum num) data st
  = (Normal (VRef (length (heap st))),
     set_heap (heap st ++ [HObject (row_literal (heap st) num data)]) st).
Proof.
  destruct (read_prop (heap st) data "id") as [a|e] eqn:Hid.
  - right. pose proof (read_prop_uniform _ _ _ _ Hid) as Hall.
    unfold ticket_row, row_literal, get_prop.
    repeat (rewrite bind_eq, Hall). done.
  - left. exists e. unfold ticket_row, get_prop. by rewrite bind_eq, Hid.
Qed.

(** The same whatever the ["#"] field is given: one cell, or a throw that
    changes nothing, a [TypeError] unless the record dangles. *)
Lemma ticket_row_any (num data : JsValue) (st : State) :
  (∃ e, (allocated (heap st) data → e = TypeError) ∧
        ticket_row num data st = (Throw e, st)) ∨
  (∃ ps, ticket_row num data st
         = (Normal (VRef (length (heap st))), set_heap (heap st ++ [HObject ps]) st)).
Proof.
  destruct (read_prop (heap st) data "id") as [a|e] eqn:Hid.
  - right. pose proof (read_prop_uniform _ _ _ _ Hid) as Hall.
    eexists. unfold ticket_row, get_prop.
    repeat (rewrite bind_eq, Hall). done.
  - left. exists e. split; [intros Hd; by eapply read_prop_throws |].
    unfold ticket_row, get_prop. by rewrite bind_eq, Hid.
Qed.

Lemma row_literal_number (h : list HeapObj) (num : Z) (data : JsValue) :
  lookup_prop "#" (row_literal h num data) = VNum num.
Proof. done. Qed.

(** The callback of [getTickets] over any records: cells are only added;
    when it completes, one numbered row per record. *)
Lemma map_elems_cases (rs : list JsValue) :
  ∀ (c : Z) (st : State),
    ∃ x,
      (∃ e,
         map_elems
           (fun counter data => row ← ticket_row (VNum counter) data; mret ((counter + 1)%Z, row))
           c rs st
         = (Throw e, set_heap (heap st ++ x) st)) ∨
      (length x = length rs ∧ numbered_cells c x ∧
       map_elems
         (fun counter data => row ← ticket_row (VNum counter) data; mret ((counter + 1)%Z, row))
         c rs st
       = (Normal (VRef <$> seq (length (heap st)) (length rs)),
          set_heap (heap st ++ x) st)).
Proof.
  induction rs as [|r rs IH]; intros c st.
  - exists []. right. split; [done |]. split; [by intros i o ?|].
    cbn [map_elems]. by rewrite ret_eq, app_nil_r, set_heap_id.
  - cbn [map_elems]. destruct (ticket_row_cases c r st) as [[e He] | Hrow].
    + exists []. left. exists e. by rewrite 2 bind_eq, He, app_nil_r, set_heap_id.
    + set (cell := HObject (row_literal (heap st) c r)) in *.
      destruct (IH (c + 1)%Z (set_heap (heap st ++ [cell]) st)) as [x [[e He] | (Hlen & Hnum & He)]];
        exists (cell :: x); [left; exists e | right];
        rewrite 2 bind_eq, Hrow, ret_eq, bind_eq, He;
        cbn [heap set_heap]; rewrite ?set_heap_twice, <- ?app_assoc; cbn [app].
      * done.
      * split; [cbn; lia |]. split.
        -- intros [|i] o Hi; cbn in Hi.
           ++ injection Hi as <-. eexists. split; [done |]. cbn. do 2 f_equal. lia.
           ++ destruct (Hnum i o Hi) as (ps & -> & Hps). exists ps. split; [done |].
              rewrite Hps. f_equal. lia.
        -- rewrite ret_eq, length_app, Nat.add_1_r. done.
Qed.

Lemma throw_state_eq {A : Type} (e : JsError) (st : State) :
  (Throw e : outcome A, st) = (Throw e, set_heap (heap st ++ []) st).
Proof. by rewrite app_nil_r, set_heap_id. Qed.

Lemma array_map_rows_cases (arr : JsValue) (st : State) :
  ∃ x,
    (∃ e,
       array_map
         (fun counter data => row ← ticket_row (VNum counter) data; mret ((counter + 1)%Z, row))
         1%Z arr st
       = (Throw e, set_heap (heap st ++ x) st)) ∨
    (numbered_cells 1 x ∧
     array_map
       (fun counter data => row ← ticket_row (VNum counter) data; mret ((counter + 1)%Z, row))
       1%Z arr st
     = (Normal (VRef (length (heap st) + length x)),
        set_heap (heap st ++ x ++ [HArray (VRef <$> seq (length (heap st)) (length x))]) st)).
Proof.
  destruct arr as [| | | | | |l]; cbn [array_map];
    try (exists []; left; exists TypeError; apply throw_state_eq).
  rewrite bind_eq. change (gets (λ st0, heap st0 !! l) st) with (Normal (heap st !! l), st).
  destruct (heap st !! l) as [[ps|els]|].
  - exists []. left. exists TypeError. apply throw_state_eq.
  - rewrite bind_eq.
    destruct (map_elems_cases els 1 st) as [x [[e He] | (Hlen & Hnum & He)]];
      exists x; rewrite He; [left; by exists e | right].
    split; [done |]. unfold alloc. norm_state. by rewrite Hlen.
  - exists []. left. exists Stuck. apply throw_state_eq.
Qed.

(** The callback of [getTickets] on any response: either it throws, having
    at most added cells, or it completes with a numbered row list and the
    dismissal. *)
Lemma getTickets_then_cases (dismiss : nat) (res : JsValue) (st : State) :
  ∃ x,
    (∃ e, getTickets_then dismiss res st = (Throw e, set_heap (heap st ++ x) st)) ∨
    (numbered_cells 1 x ∧
     getTickets_then dismiss res st
     = (Normal tt,
        set_log (log st ++ [EDismiss dismiss])
          (set_tickets (VRef (length (heap st) + length x))
             (set_heap
                (heap st ++ x ++ [HArray (VRef <$> seq (length (heap st)) (length x))])
                st)))).
Proof.
  unfold getTickets_then. rewrite bind_eq.
  change (get_prop res "data" st) with (read_prop (heap st) res "data", st).
  destruct (read_prop (heap st) res "data") as [d|e];
    [| exists []; left; exists e; apply throw_state_eq].
  rewrite bind_eq.
  change (get_prop d "data" st) with (read_prop (heap st) d "data", st).
  destruct (read_prop (heap st) d "data") as [dd|e];
    [| exists []; left; exists e; apply throw_state_eq].
  rewrite bind_eq.
  destruct (array_map_rows_cases dd st) as [x [[e He] | [Hnum He]]];
    exists x; rewrite He; [left; by exists e | right].
  split; [done |].
  unfold modify, call_dismiss, emit. rewrite !bind_eq, ret_eq. by destruct st.
Qed.

(** [updateTicketList] on any event, as a case rule: the add dialog is
    closed first; then either it throws, having at most added cells, or it
    completes with the row list, an array or a string, spread into a new
    array and followed by one row numbered after its length.  On a heap
    whose references all point inside, and with a row list whose length is
    plain, what it throws is a [TypeError]. *)
Lemma updateTicketList_elim (data : JsValue) (st : State)
    (Q : outcome unit * State → Prop) :
  (∀ e x,
     (closed (heap st) → allocated (heap st) data → allocated (heap st) (tickets st) →
      plain_length (heap st) (tickets st) → e = TypeError) →
     Q (Throw e, set_heap (heap st ++ x) (set_showaddTicketDialog false st))) →
  (∀ rec old,
     elements (heap st ++ [HArray [rec]]) (tickets st) = Some old →
     Q (Normal tt,
        set_log (log st ++ [added_notice])
          (set_tickets (VRef (length (heap st) + 3))
             (set_heap
                (heap st ++
                   [HArray [rec];
                    HObject (row_literal (heap st ++ [HArray [rec]])
                               (Z.of_nat (length old) + 1) rec);
                    HArray [VRef (S (length (heap st)))];
                    HArray (old ++ [VRef (S (length (heap st)))])])
                (set_showaddTicketDialog false st))))) →
  Q (updateTicketList data st).
Proof.
  intros Hthrow Hok.
  destruct st as [h tk tks sa su lg ks]. cbn [heap tickets log] in Hthrow, Hok.
  unfold updateTicketList.
  rewrite bind_eq. unfold modify at 1. norm_state.
  rewrite bind_eq. unfold alloc at 1. norm_state.
  rewrite bind_eq.
  match goal with
  | |- context [get_prop data "data" ?s] =>
      change (get_prop data "data" s) with (read_prop (heap s) data "data", s)
  end.
  norm_state.
  destruct (read_prop (h ++ [HArray []]) data "data") as [rec|e] eqn:Hrec.
  2:{ apply (Hthrow e [HArray []]). intros _ Hd _ _.
      rewrite read_prop_app in Hrec by done. by eapply read_prop_throws. }
  rewrite bind_eq, (array_push_last h [] rec) by done. norm_state.
  rewrite bind_eq. unfold array_map at 1. rewrite bind_eq. unfold gets at 1. norm_state.
  rewrite list_lookup_middle by done.
  rewrite bind_eq. cbn [map_elems]. rewrite bind_eq, bind_eq. unfold gets at 1. norm_state.
  rewrite bind_eq.
  match goal with
  | |- context [get_length tks ?s] =>
      change (get_length tks s) with (read_length (heap s) tks, s)
  end.
  norm_state.
  assert (Hrec1 : closed h → allocated h data → allocated (h ++ [HArray [rec]]) rec).
  { intros Hh Hd. rewrite read_prop_app in Hrec by done.
    apply (read_prop_allocated h data "data" rec Hh) in Hrec.
    destruct rec; cbn in *; try done. rewrite length_app. lia. }
  assert (Hext : ∀ y, h ++ HArray [rec] :: y = (h ++ [HArray [rec]]) ++ y).
  { intros y. by rewrite <- app_assoc. }
  destruct (elements (h ++ [HArray [rec]]) tks) as [old|] eqn:Hel.
  - (* the row list is an array or a string *)
    rewrite (elements_length _ _ _ Hel).
    rewrite bind_eq. unfold lift at 1. cbn [plus_one].
    rewrite bind_eq.
    match goal with
    | |- context [ticket_row ?num rec ?s] =>
        destruct (ticket_row_any num rec s) as [(e & He1 & He) | [ps He]];
        [| destruct (ticket_row_cases (Z.of_nat (length old) + 1) rec s) as [[e He'] | He'];
           [rewrite He in He'; discriminate |] ]
    end.
    { rewrite He. apply (Hthrow e [HArray [rec]]). intros Hh Hd _ _.
      apply He1. cbn [heap]. by apply Hrec1. }
    clear ps He. rewrite He'.
    rewrite ret_eq, bind_eq, ret_eq, ret_eq. norm_state.
    unfold alloc at 1. norm_state.
    rewrite bind_eq. unfold gets at 1. norm_state.
    rewrite bind_eq, (spread_elements tks old)
      by (norm_state; rewrite Hext; by apply elements_app).
    rewrite bind_eq, (spread_array (length h + 2) [VRef (length h + 1)]).
    2:{ norm_state. rewrite lookup_app_r by lia.
        by replace (length h + 2 - length h) with 2 by lia. }
    rewrite bind_eq. unfold alloc at 1. norm_state.
    rewrite bind_eq. unfold modify at 1. norm_state.
    rewrite bind_eq. unfold notify, emit. rewrite ret_eq. norm_state.
    specialize (Hok rec old Hel). revert Hok. norm_state.
    replace (length h + 1) with (S (length h)) by lia. done.
  - (* the row list cannot be spread *)
    destruct (read_length (h ++ [HArray [rec]]) tks) as [len|e] eqn:Hlen.
    2:{ apply (Hthrow e [HArray [rec]]). intros _ _ Ht _.
        rewrite read_length_app in Hlen by done.
        by eapply read_length_throws. }
    rewrite bind_eq. unfold lift at 1.
    destruct (plus_one len) as [num|e] eqn:Hnum.
    2:{ apply (Hthrow e [HArray [rec]]). intros _ _ Ht Hplain. exfalso.
        rewrite read_length_app in Hlen by done.
        unfold plain_length in Hplain. rewrite Hlen in Hplain.
        by destruct len. }
    rewrite bind_eq.
    match goal with
    | |- context [ticket_row num rec ?s] =>
        destruct (ticket_row_any num rec s) as [(e & He1 & He) | [ps He]]; rewrite He
    end.
    { apply (Hthrow e [HArray [rec]]). intros Hh Hd _ _.
      apply He1. cbn [heap]. by apply Hrec1. }
    rewrite ret_eq, bind_eq, ret_eq, ret_eq. norm_state.
    unfold alloc at 1. norm_state.
    rewrite bind_eq. unfold gets at 1. norm_state.
    rewrite bind_eq, (spread_not_iterable (h ++ [HArray [rec]])
                        [HObject ps; HArray [VRef (length h + 1)]] tks len)
      by (try done; norm_state; by rewrite Hext).
    by apply (Hthrow TypeError [HArray [rec]; HObject ps; HArray [VRef (S (length h))]]).
Qed.

(** [editTicket] on any value: it throws at the first read and changes
    nothing, or fills the form and opens the dialog. *)
Lemma editTicket_cases (evt props : JsValue) (st : State) :
  (∃ e, (∀ k, read_prop (heap st) props k = Throw e) ∧
        editTicket evt props st = (Throw e, st)) ∨
  ((∀ k, read_prop (heap st) props k = Normal (field (heap st) props k)) ∧
   editTicket evt props st
   = (Normal tt,
      set_showUpdateTicketDialog true
        (set_ticket (VRef (length (heap st)))
           (set_heap
              (heap st ++
                 [HObject [("id", field (heap st) props "id");
                           ("subject", field (heap st) props "subject");
                           ("description", field (heap st) props "description");
                           ("status", field (heap st) props "status");
                           ("created", formatDate (field (heap st) props "createdAt") date_mask);
                           ("updated", formatDate (field (heap st) props "updatedAt") date_mask);
                           ("comments", field (heap st) props "comments")]])
              st)))).
Proof.
  destruct (read_prop (heap st) props "id") as [a|e] eqn:Hid.
  - right. pose proof (read_prop_uniform _ _ _ _ Hid) as Hall. split; [done |].
    unfold editTicket, get_prop. repeat (rewrite bind_eq, Hall).
    unfold alloc, modify. by rewrite !bind_eq.
  - left. exists e. split; [by apply (read_prop_throw_uniform _ _ "id") |].
    unfold editTicket, get_prop. by rewrite bind_eq, Hid.
Qed.

(** Every step of the event loop is one of the transitions. *)
Lemma step_transition (st : State) (ev : Event) : transition st (step st ev) ev.
Proof.
  assert (Hsame : ∀ ev' st', heap st' = heap st → tickets st' = tickets st →
            log st' = log st → conts st' = conts st → transition st st' ev').
  { intros ev' st' Hh Ht Hl Hc. apply (tr_grow _ _ _ []); try done. by rewrite app_nil_r. }
  unfold step. destruct ev as [| evt row | props | data | | h s | b | b | v | o];
    cbn [handle_event].
  - by apply Hsame.
  - destruct (editTicket_cases evt row st) as [(e & _ & ->) | [_ ->]]; [by apply Hsame |].
    by eapply tr_grow.
  - destruct (deleteTicket_cases props st) as [(row & id & Hrow & Hid & ->) | [e ->]];
      [| by apply Hsame].
    by eapply tr_dialog.
  - apply (updateTicketList_elim data st
             (λ R, transition st (snd R) (EvCreateUpdated data))).
    + intros e x _. by eapply tr_grow.
    + intros rec old Hold.
      eapply (tr_create _ _ data rec old); try done. apply row_literal_number.
  - rewrite ticketUpdated_eq. by apply tr_reload_edit.
  - destruct (find_cont h (conts st)) as [k|] eqn:Hk.
    2:{ rewrite (settle_missing h s st Hk). by apply Hsame. }
    rewrite (settle_found h s k st Hk).
    set (st1 := set_conts (remove_cont h (conts st)) st).
    assert (Hdrop : ∀ st' x, heap st' = heap st ++ x → tickets st' = tickets st →
              log st' = log st → conts st' = remove_cont h (conts st) →
              transition st st' (EvSettle h s)).
    { intros st' x Hh Ht Hl Hc. by eapply tr_drop. }
    destruct k as [m | props |], s as [v | | |]; cbn [run_cont];
      try (apply (Hdrop _ []); try done; by rewrite app_nil_r).
    + destruct (getTickets_then_cases m v st1) as [x [[e ->] | [Hnum ->]]].
      * by eapply Hdrop.
      * by eapply tr_load.
    + destruct (deleteTicket_onOk_cases props st1) as [(row & id & Hrow & Hid & ->) | [e ->]].
      * by eapply tr_delete.
      * apply (Hdrop _ []); try done. by rewrite app_nil_r.
    + unfold deleteTicket_then. rewrite getTickets_eq. by apply tr_reload_delete.
  - by apply Hsame.
  - by apply Hsame.
  - by apply Hsame.
  - by apply (tr_grow _ _ _ [o]).
Qed.

End OutcomeProofs.

(** ** Invariants of the heap and of the row list *)

Lemma numbered_app (h x : list HeapObj) (v : JsValue) :
  numbered h v → numbered (h ++ x) v.
Proof.
  intros (t & rows & -> & Ht & Hrows). exists t, rows. split; [done |]. split.
  - rewrite lookup_app_l; [done | by apply lookup_lt_Some in Ht].
  - intros i row Hi. by apply read_prop_normal_app, Hrows.
Qed.

Section HeapInvariants.

Context `{RT : Runtime}.

Lemma transition_grows (st st' : State) (ev : Event) :
  transition st st' ev → ∃ x, heap st' = heap st ++ x.
Proof.
  intros Htr. inversion Htr; subst; try (by eexists);
    exists []; by rewrite app_nil_r.
Qed.

Lemma run_grows (evs : list Event) (st : State) :
  ∃ x, heap (run evs st) = heap st ++ x.
Proof.
  revert st. induction evs as [|ev evs IH]; intros st.
  - exists []. by rewrite app_nil_r.
  - cbn [run foldl]. destruct (IH (step st ev)) as [x2 H2].
    destruct (transition_grows _ _ _ (step_transition st ev)) as [x1 H1].
    exists (x1 ++ x2). unfold run in H2. by rewrite H2, H1, app_assoc.
Qed.

(** X9: the handlers never write into a cell that exists.  Over any run of
    events, from any state, the heap at the end is the heap at the start
    followed by new cells: every row, record and form object keeps the
    contents it was created with. *)
Theorem heap_only_grows (evs : list Event) (st : State) :
  (∃ x, heap (run evs st) = heap st ++ x) ∧
  (∀ l o, heap st !! l = Some o → heap (run evs st) !! l = Some o) ∧
  (∀ v k a, read_prop (heap st) v k = Normal a →
            read_prop (heap (run evs st)) v k = Normal a).
Proof.
  destruct (run_grows evs st) as [x Hx]. split; [by exists x |]. rewrite Hx. split.
  - intros l o Hl. rewrite lookup_app_l; [done | by apply lookup_lt_Some in Hl].
  - intros v k a Hv. by apply read_prop_normal_app.
Qed.

Lemma numbered_transition (st st' : State) (ev : Event) :
  numbered (heap st) (tickets st) → transition st st' ev →
  numbered (heap st') (tickets st').
Proof.
  intros Hnum Htr.
  assert (Hkeep : ∀ x, heap st' = heap st ++ x → tickets st' = tickets st →
            numbered (heap st') (tickets st')).
  { intros x -> ->. by apply numbered_app. }
  inversion Htr; subst; try (by eapply Hkeep);
    try (apply (Hkeep []); [by rewrite app_nil_r | done]).
  - (* a load *)
    match goal with H : heap st' = _, H' : tickets st' = _ |- _ => rewrite H, H' end.
    eexists _, _. split; [done |]. split.
    { rewrite app_assoc. apply list_lookup_middle. by rewrite length_app. }
    intros i row Hi. apply list_lookup_fmap_Some in Hi as (j & -> & Hj).
    apply lookup_seq in Hj as [-> Hlt].
    destruct (lookup_lt_is_Some_2 x i Hlt) as [o Ho].
    match goal with H : numbered_cells _ _ |- _ => destruct (H i o Ho) as (ps & -> & Hps) end.
    cbn [read_prop]. rewrite lookup_app_r by lia.
    replace (length (heap st) + i - length (heap st)) with i by lia.
    rewrite lookup_app_l, Ho by lia. rewrite Hps. do 2 f_equal. lia.
  - (* a create *)
    destruct Hnum as (t0 & rows & Ht0 & Hrows & Hnum).
    match goal with
    | H : elements (heap st ++ _) (tickets st) = Some old |- _ =>
        rewrite Ht0 in H; cbn [elements] in H;
        rewrite lookup_app_l, Hrows in H by (by apply lookup_lt_Some in Hrows);
        injection H as <-
    end.
    match goal with H : heap st' = _, H' : tickets st' = _ |- _ => rewrite H, H' end.
    eexists _, _. split; [done |]. split.
    { rewrite lookup_app_r by lia.
      by replace (length (heap st) + 3 - length (heap st)) with 3 by lia. }
    intros i row Hi. apply lookup_app_Some in Hi as [Hi | [Hge Hi]].
    + by apply read_prop_normal_app, Hnum.
    + apply list_lookup_singleton_Some in Hi as [Hi <-].
      cbn [read_prop]. rewrite lookup_app_r by lia.
      replace (S (length (heap st)) - length (heap st)) with 1 by lia. cbn.
      match goal with H : lookup_prop "#" ps = _ |- _ => rewrite H end.
      do 2 f_equal. lia.
Qed.

(** X10: the sequence numbers of the row list never go stale.  In every
    state the component reaches from [setup], whatever the events and
    however loads and creates interleave, the row list is an array and its
    row at position [i] (from 0) holds [i + 1] in its ["#"] field. *)
Theorem rows_always_numbered (evs : list Event) :
  numbered (heap (run evs init)) (tickets (run evs init)).
Proof.
  assert (Hrun : ∀ st, numbered (heap st) (tickets st) →
            numbered (heap (run evs st)) (tickets (run evs st))).
  { induction evs as [|ev evs IH]; intros st Hst; [done |].
    apply IH. eapply numbered_transition; [done | apply step_transition]. }
  apply Hrun. exists 1, []. by repeat split.
Qed.

End HeapInvariants.

(** ** Invariants of the log *)

Lemma count_app {A : Type} (p : A → bool) (l k : list A) :
  count p (l ++ k) = count p l + count p k.
Proof. unfold count. by rewrite List.filter_app, length_app. Qed.

Lemma elem_of_dismissals (m : nat) (l : list Effect) :
  m ∈ dismissals l ↔ EDismiss m ∈ l.
Proof.
  unfold dismissals. rewrite list_elem_of_omap. split.
  - intros (e & He & Hm). destruct e; by simplify_eq.
  - intros He. by exists (EDismiss m).
Qed.

Section LogInvariants.

Context `{RT : Runtime}.

Lemma dismissals_step (st : State) (ev : Event) :
  pending_ok st →
  NoDup (dismissals (log st)) →
  (∀ m, m ∈ dismissals (log st) → log st !! m = Some loading_notice) →
  NoDup (dismissals (log (step st ev))) ∧
  (∀ m, m ∈ dismissals (log (step st ev)) → log (step st ev) !! m = Some loading_notice).
Proof.
  intros [Hks _] Hnd Hload. rewrite Forall_forall in Hks.
  destruct (step_footprint st ev) as (base & extra & new & Hfp & Hl & Hc).
  rewrite Hl. unfold dismissals at 1 2. rewrite omap_app. fold (dismissals (log st)).
  assert (Hold : ∀ m, m ∈ dismissals (log st) →
            (log st ++ extra) !! m = Some loading_notice).
  { intros m Hm. specialize (Hload m Hm).
    rewrite lookup_app_l; [done | by apply lookup_lt_Some in Hload]. }
  inversion Hfp; subst; cbn [omap]; rewrite ?app_nil_r; try done.
  match goal with H : find_cont _ _ = Some (KListThen _) |- _ =>
    apply find_cont_elem, Hks in H as [_ Hm] end.
  destruct (Hm m eq_refl) as (_ & Hn & _ & Hnot). split.
  - apply NoDup_app. split; [done |]. split; [| apply NoDup_singleton].
    intros n Hn' ->%list_elem_of_singleton. by apply elem_of_dismissals in Hn'.
  - intros n [Hn' | ->%list_elem_of_singleton]%elem_of_app; [by apply Hold |].
    rewrite lookup_app_l; [done | by apply lookup_lt_Some in Hn].
Qed.

(** X12: a loading notification is dismissed at most once, and nothing else
    is ever dismissed.  In every state reached from [setup], the handles
    passed to dismiss are pairwise distinct and each is the position of a
    loading notification in the log. *)
Theorem dismissals_once (evs : list Event) :
  NoDup (dismissals (log (run evs init))) ∧
  (∀ m, m ∈ dismissals (log (run evs init)) →
        log (run evs init) !! m = Some loading_notice).
Proof.
  assert (Hrun : ∀ st,
            pending_ok st → NoDup (dismissals (log st)) →
            (∀ m, m ∈ dismissals (log st) → log st !! m = Some loading_notice) →
            NoDup (dismissals (log (run evs st))) ∧
            (∀ m, m ∈ dismissals (log (run evs st)) →
                  log (run evs st) !! m = Some loading_notice)).
  { induction evs as [|ev evs IH]; intros st Hok Hnd Hload; [done |].
    destruct (dismissals_step st ev Hok Hnd Hload) as [Hnd' Hload'].
    apply IH; [by apply pending_ok_step | done | done]. }
  apply Hrun; [apply pending_ok_init | apply NoDup_nil_2 |].
  by intros m ?%elem_of_nil.
Qed.

(** X14: in every state reached from [setup], each pending callback waits
    on a call already in the log, and the callback of a load waits on the
    list call made right after its own loading notification, which has not
    been dismissed yet. *)
Theorem pending_callbacks_in_order (evs : list Event) : pending_ok (run evs init).
Proof. apply pending_ok_run, pending_ok_init. Qed.

Lemma loads_announced_step (st : State) (ev : Event) :
  loads_announced (log st) → loads_announced (log (step st ev)).
Proof.
  intros Hold.
  destruct (step_footprint st ev) as (base & extra & new & Hfp & Hl & Hc).
  rewrite Hl. intros i args Hi. apply lookup_app_Some in Hi as [Hi | [Hge Hi]].
  - destruct (Hold i args Hi) as (Hargs & j & -> & Hj). split; [done |].
    exists j. split; [done |]. rewrite lookup_app_l; [done | by apply lookup_lt_Some in Hj].
  - inversion Hfp; subst;
      destruct (i - length (log st)) as [|[|k]] eqn:Hk; cbn in Hi; simplify_eq;
      (split; [done |]); exists (length (log st)); (split; [lia |]);
      by apply list_lookup_middle.
Qed.

(** X13: every list call the component ever makes asks for the first
    100000 tickets sorted by subject, ascending, with an empty search term,
    and is made right after a loading notification is shown. *)
Theorem list_calls_announced (evs : list Event) : loads_announced (log (run evs init)).
Proof.
  assert (Hrun : ∀ st, loads_announced (log st) → loads_announced (log (run evs st))).
  { induction evs as [|ev evs IH]; intros st Hst; [done |].
    apply IH. by apply loads_announced_step. }
  apply Hrun. rewrite init_eq. cbn [log].
  intros [|[|i]] args Hi; cbn in Hi; simplify_eq.
  split; [done |]. by exists 0.
Qed.

Lemma calls_step (st : State) (ev : Event) :
  (count is_list (log (step st ev))
   ≤ count is_list (log st) + (if is_reload_event ev then 1 else 0))%nat ∧
  (count is_added_notice (log (step st ev))
   ≤ count is_added_notice (log st) + (if is_create_event ev then 1 else 0))%nat.
Proof.
  destruct (step_footprint st ev) as (base & extra & new & Hfp & Hl & Hc).
  rewrite Hl, !count_app.
  inversion Hfp; subst;
    repeat match goal with
           | |- context [count ?p (?x :: ?l)] =>
               let v := eval vm_compute in (count p (x :: l)) in
               change (count p (x :: l)) with v
           end;
    cbn [count List.filter length is_reload_event is_create_event];
    repeat match goal with
           | |- context [if ?b then _ else _] => destruct b
           end;
    split; lia.
Qed.

(** X15: what can start a load, and what can announce success.  Over any
    run of events from any state, the number of list calls grows by at most
    the number of edit "updated" events and fulfilled calls in the run, and
    the number of success notifications by at most the number of create
    "updated" events: clicks, cancelled or accepted dialogs and rejected
    calls never start a load. *)
Theorem calls_bounded_by_events (evs : list Event) (st : State) :
  (count is_list (log (run evs st))
   ≤ count is_list (log st) + count is_reload_event evs)%nat ∧
  (count is_added_notice (log (run evs st))
   ≤ count is_added_notice (log st) + count is_create_event evs)%nat.
Proof.
  revert st. induction evs as [|ev evs IH]; intros st; [cbn; lia |].
  cbn [run foldl]. destruct (IH (step st ev)) as [H1 H2]. unfold run in H1, H2.
  destruct (calls_step st ev) as [H3 H4].
  unfold count in *. cbn [List.filter].
  destruct (is_reload_event ev), (is_create_event ev); cbn [length]; lia.
Qed.

(** One step keeps the dialogs and the deletes in line, given what it adds
    to heap, log and callbacks. *)
Lemma confirmed_grow (st st' : State) (x : list HeapObj) (extra : list Effect)
    (base new : list (nat * Cont)) :
  dialogs_ok st → deletes_confirmed (log st) →
  heap st' = heap st ++ x → log st' = log st ++ extra → conts st' = base ++ new →
  (∀ hk, hk ∈ base → hk ∈ conts st) →
  (∀ h p, (h, KDialogOk p) ∈ new →
          ∃ row id, read_prop (heap st) p "row" = Normal row ∧
                    read_prop (heap st) row "id" = Normal id ∧
                    (log st ++ extra) !! h = Some (EDialog id)) →
  (∀ i id, extra !! i = Some (EDelete id) →
           ∃ j, log st !! j = Some (EDialog id)) →
  dialogs_ok st' ∧ deletes_confirmed (log st').
Proof.
  intros Hdlg Hdel Hh Hl Hc Hbase Hnew Hextra. split.
  - intros h p Hin. rewrite Hc in Hin. rewrite Hh, Hl.
    assert (Hgoal : ∃ row id, read_prop (heap st) p "row" = Normal row ∧
                      read_prop (heap st) row "id" = Normal id ∧
                      (log st ++ extra) !! h = Some (EDialog id)).
    { apply elem_of_app in Hin as [Hin | Hin]; [| by apply Hnew].
      destruct (Hdlg h p (Hbase _ Hin)) as (row & id & Hrow & Hid & Hlog).
      exists row, id. split; [done |]. split; [done |].
      rewrite lookup_app_l; [done | by apply lookup_lt_Some in Hlog]. }
    destruct Hgoal as (row & id & Hrow & Hid & Hlog). exists row, id.
    split; [by apply read_prop_normal_app |]. split; [by apply read_prop_normal_app | done].
  - rewrite Hl. intros i id Hi. apply lookup_app_Some in Hi as [Hi | [Hge Hi]].
    + destruct (Hdel i id Hi) as (j & Hj & Hlog). exists j. split; [done |].
      rewrite lookup_app_l; [done | by apply lookup_lt_Some in Hlog].
    + destruct (Hextra _ id Hi) as [j Hj]. exists j.
      pose proof (lookup_lt_Some _ _ _ Hj) as Hlt. split; [lia |].
      by rewrite lookup_app_l.
Qed.

Lemma confirmed_transition (st st' : State) (ev : Event) :
  dialogs_ok st → deletes_confirmed (log st) → transition st st' ev →
  dialogs_ok st' ∧ deletes_confirmed (log st').
Proof.
  intros Hdlg Hdel Htr.
  assert (Hrm : ∀ h hk, hk ∈ remove_cont h (conts st) → hk ∈ conts st).
  { intros h hk Hin. by apply elem_of_remove_cont in Hin as [Hin _]. }
  assert (Hnone : ∀ (new : list (nat * Cont)) h p,
            Forall (λ hk : nat * Cont, ∀ q, hk.2 ≠ KDialogOk q) new →
            (h, KDialogOk p) ∈ new → False).
  { intros new h p Hall Hin. rewrite Forall_forall in Hall. by eapply (Hall _ Hin p). }
  assert (Hgrow : ∀ x extra base new,
            heap st' = heap st ++ x → log st' = log st ++ extra →
            conts st' = base ++ new →
            (base = conts st ∨ ∃ h, base = remove_cont h (conts st)) →
            (∀ h p, (h, KDialogOk p) ∈ new →
                    ∃ row id, read_prop (heap st) p "row" = Normal row ∧
                              read_prop (heap st) row "id" = Normal id ∧
                              (log st ++ extra) !! h = Some (EDialog id)) →
            (∀ i id, extra !! i = Some (EDelete id) →
                     ∃ j, log st !! j = Some (EDialog id)) →
            dialogs_ok st' ∧ deletes_confirmed (log st')).
  { intros x extra base new Hh Hl Hc Hbase. apply (confirmed_grow st st' x extra base new);
      try done. intros hk Hin. destruct Hbase as [-> | [h ->]]; [done | by eapply Hrm]. }
  assert (Hnil : ∀ (extra : list Effect) h p,
            (h, KDialogOk p) ∈ ([] : list (nat * Cont)) →
            ∃ row id, read_prop (heap st) p "row" = Normal row ∧
                      read_prop (heap st) row "id" = Normal id ∧
                      (log st ++ extra) !! h = Some (EDialog id)).
  { by intros extra h p ?%elem_of_nil. }
  inversion Htr; subst.
  - apply (Hgrow x [] (conts st) []);
      [done | by rewrite app_nil_r | by rewrite app_nil_r | by left | apply Hnil |].
    by intros i id ?.
  - apply (Hgrow x [] (remove_cont h (conts st)) []);
      [done | by rewrite app_nil_r | by rewrite app_nil_r | right; by exists h
      | apply Hnil |].
    by intros i id ?.
  - apply (Hgrow (x ++ [HArray (VRef <$> seq (length (heap st)) (length x))])
             [EDismiss m] (remove_cont h (conts st)) []);
      [done | done | by rewrite app_nil_r | right; by exists h | apply Hnil |].
    intros [|i] id Hi; cbn in Hi; by simplify_eq.
  - eapply (Hgrow _ [added_notice] (conts st) []);
      [done | done | by rewrite app_nil_r | by left | apply Hnil |].
    intros [|i] id Hi; cbn in Hi; by simplify_eq.
  - apply (Hgrow [] [EDialog id] (conts st) [(length (log st), KDialogOk props)]);
      [by rewrite app_nil_r | done | done | by left | |].
    + intros h' p Hin%list_elem_of_singleton. simplify_eq. exists row, id.
      split; [done |]. split; [done |]. by apply list_lookup_middle.
    + intros [|i] id' Hi; cbn in Hi; by simplify_eq.
  - apply (Hgrow [] [EDelete id] (remove_cont h (conts st))
             [(length (log st), KDeleteThen)]);
      [by rewrite app_nil_r | done | done | right; by exists h | |].
    + intros h' p Hin%list_elem_of_singleton. by simplify_eq.
    + intros [|i] id' Hi; cbn in Hi; simplify_eq.
      match goal with H : find_cont h _ = Some (KDialogOk _) |- _ =>
        apply find_cont_elem, Hdlg in H as (row' & id'' & Hrow' & Hid' & Hlog) end.
      assert (row' = row) as -> by congruence.
      assert (id'' = id') as -> by congruence. by exists h.
  - apply (Hgrow [] [loading_notice; list_call] (conts st)
             [(S (length (log st)), KListThen (length (log st)))]);
      [by rewrite app_nil_r | done | done | by left | |].
    + intros h' p Hin%list_elem_of_singleton. by simplify_eq.
    + intros [|[|i]] id Hi; cbn in Hi; by simplify_eq.
  - apply (Hgrow [] [loading_notice; list_call] (remove_cont h (conts st))
             [(S (length (log st)), KListThen (length (log st)))]);
      [by rewrite app_nil_r | done | done | right; by exists h | |].
    + intros h' p Hin%list_elem_of_singleton. by simplify_eq.
    + intros [|[|i]] id Hi; cbn in Hi; by simplify_eq.
Qed.

(** X11: what is deleted is what was confirmed.  In every state reached
    from [setup], each call of the remote delete comes later in the log than
    a confirmation dialog that showed the very id the delete is called
    with. *)
Theorem deletes_were_confirmed (evs : list Event) :
  deletes_confirmed (log (run evs init)).
Proof.
  assert (Hrun : ∀ st, dialogs_ok st → deletes_confirmed (log st) →
            dialogs_ok (run evs st) ∧ deletes_confirmed (log (run evs st))).
  { induction evs as [|ev evs IH]; intros st Hd Hc; [done |].
    destruct (confirmed_transition st (step st ev) ev Hd Hc (step_transition st ev)).
    by apply IH. }
  apply Hrun.
  - rewrite init_eq. intros h p Hin. cbn [conts] in Hin.
    by apply list_elem_of_singleton in Hin.
  - rewrite init_eq. intros [|[|i]] id Hi; cbn in Hi; by simplify_eq.
Qed.

End LogInvariants.

(** ** The handlers on any input *)

Lemma numbered_load (h x : list HeapObj) :
  numbered_cells 1 x →
  numbered (h ++ x ++ [HArray (VRef <$> seq (length h) (length x))])
    (VRef (length h + length x)).
Proof.
  intros Hnum. eexists _, _. split; [done |]. split.
  { rewrite app_assoc. apply list_lookup_middle. by rewrite length_app. }
  intros i row Hi. apply list_lookup_fmap_Some in Hi as (j & -> & Hj).
  apply lookup_seq in Hj as [-> Hlt].
  destruct (lookup_lt_is_Some_2 x i Hlt) as [o Ho].
  destruct (Hnum i o Ho) as (ps & -> & Hps).
  cbn [read_prop]. rewrite lookup_app_r by lia.
  replace (length h + i - length h) with i by lia.
  rewrite lookup_app_l, Ho by lia. rewrite Hps. do 2 f_equal. lia.
Qed.

Section HandlerOutcomes.

Context `{RT : Runtime}.

(** X5: the loader's callback is all or nothing for the row list.  On any
    response it only adds cells to the heap and leaves form, flags and
    callbacks alone; either it completes, the row list is a new numbered
    array and the loading notification is dismissed, or it throws (response
    without [data.data], not an array, a null record), the row list is the
    one from before and the notification is not dismissed. *)
Theorem getTickets_then_all_or_nothing (dismiss : nat) (res : JsValue) (st : State) :
  let o := fst (getTickets_then dismiss res st) in
  let st' := snd (getTickets_then dismiss res st) in
  (∃ x, heap st' = heap st ++ x) ∧
  ticket st' = ticket st ∧
  showaddTicketDialog st' = showaddTicketDialog st ∧
  showUpdateTicketDialog st' = showUpdateTicketDialog st ∧
  conts st' = conts st ∧
  ((o = Normal tt ∧ log st' = log st ++ [EDismiss dismiss] ∧
    numbered (heap st') (tickets st') ∧
    ∃ t, tickets st' = VRef t ∧ heap st !! t = None) ∨
   (∃ e, o = Throw e ∧ log st' = log st ∧ tickets st' = tickets st)).
Proof.
  cbn zeta.
  destruct (getTickets_then_cases dismiss res st) as [x [[e ->] | [Hnum ->]]];
    cbn [fst snd heap ticket tickets showaddTicketDialog showUpdateTicketDialog log conts
         set_heap set_tickets set_log].
  - split; [by exists x |]. do 4 (split; [done |]). right. by exists e.
  - split; [by eexists |]. do 4 (split; [done |]). left.
    split; [done |]. split; [done |]. split; [by apply numbered_load |].
    eexists. split; [done |]. apply lookup_ge_None. lia.
Qed.

(** X6: [updateTicketList] closes the add dialog before anything can fail.
    On a heap whose references all point inside, for any event and any row
    list whose length is not itself an object or a string, the add dialog
    ends closed and only cells are added to the heap.  Either the call
    completes: the row list was an array or a string, the new row list is a
    new array holding its elements (the rows, or the characters of the
    string) followed by one row numbered after them, and the success
    notification is emitted.  Or it throws a [TypeError] (no event data, a
    null record, a row list that cannot be spread): the row list is the one
    from before and no notification is emitted. *)
Theorem updateTicketList_closes_dialog_first (data : JsValue) (st : State) :
  closed (heap st) → allocated (heap st) data → allocated (heap st) (tickets st) →
  plain_length (heap st) (tickets st) →
  let o := fst (updateTicketList data st) in
  let st' := snd (updateTicketList data st) in
  showaddTicketDialog st' = false ∧
  (∃ x, heap st' = heap st ++ x) ∧
  ticket st' = ticket st ∧
  showUpdateTicketDialog st' = showUpdateTicketDialog st ∧
  conts st' = conts st ∧
  ((o = Normal tt ∧ log st' = log st ++ [added_notice] ∧
    ∃ t' old row,
      elements (heap st) (tickets st) = Some old ∧
      tickets st' = VRef t' ∧ heap st' !! t' = Some (HArray (old ++ [row])) ∧
      heap st !! t' = None ∧
      read_prop (heap st') row "#" = Normal (VNum (Z.of_nat (length old) + 1))) ∨
   (o = Throw TypeError ∧ log st' = log st ∧ tickets st' = tickets st)).
Proof.
  intros Hh Hd Ht Hplain. cbn zeta.
  apply (updateTicketList_elim data st
    (λ R,
       showaddTicketDialog (snd R) = false ∧
       (∃ x, heap (snd R) = heap st ++ x) ∧
       ticket (snd R) = ticket st ∧
       showUpdateTicketDialog (snd R) = showUpdateTicketDialog st ∧
       conts (snd R) = conts st ∧
       ((fst R = Normal tt ∧ log (snd R) = log st ++ [added_notice] ∧
         ∃ t' old row,
           elements (heap st) (tickets st) = Some old ∧
           tickets (snd R) = VRef t' ∧ heap (snd R) !! t' = Some (HArray (old ++ [row])) ∧
           heap st !! t' = None ∧
           read_prop (heap (snd R)) row "#" = Normal (VNum (Z.of_nat (length old) + 1))) ∨
        (fst R = Throw TypeError ∧ log (snd R) = log st ∧ tickets (snd R) = tickets st)))).
  - intros e x He. rewrite (He Hh Hd Ht Hplain). cbn.
    split; [done |]. split; [by exists x |]. do 3 (split; [done |]). by right.
  - intros rec old Hold. cbn [fst snd]. norm_state.
    split; [done |]. split; [by eexists |]. do 3 (split; [done |]). left.
    split; [done |]. split; [done |].
    exists (length (heap st) + 3), old, (VRef (S (length (heap st)))).
    split; [by rewrite elements_alloc_app in Hold |].
    split; [done |]. split.
    { rewrite lookup_app_r by lia.
      by replace (length (heap st) + 3 - length (heap st)) with 3 by lia. }
    split; [apply lookup_ge_None; lia |].
    cbn [read_prop]. rewrite lookup_app_r by lia.
    by replace (S (length (heap st)) - length (heap st)) with 1 by lia.
Qed.

(** X7: [editTicket] is all or nothing.  On undefined or null it throws a
    TypeError; whenever it throws, the state is exactly as before (no form,
    dialog not opened); otherwise it stores a fresh seven-field form object
    and opens the edit dialog, touching nothing else. *)
Theorem editTicket_all_or_nothing (evt props : JsValue) (st : State) :
  (props = VUndefined ∨ props = VNull → editTicket evt props st = (Throw TypeError, st)) ∧
  ((∃ e, editTicket evt props st = (Throw e, st)) ∨
   (∃ form,
      editTicket evt props st
      = (Normal tt,
         set_showUpdateTicketDialog true
           (set_ticket (VRef (length (heap st)))
              (set_heap (heap st ++ [HObject form]) st))) ∧
      fst <$> form
      = ["id"; "subject"; "description"; "status"; "created"; "updated"; "comments"])).
Proof.
  split.
  - by intros [-> | ->].
  - destruct (editTicket_cases evt props st) as [(e & _ & He) | [_ He]].
    + left. by exists e.
    + right. eexists. by split.
Qed.

(** X8: [deleteTicket] and its [onOk] callback make their call only when
    [props.row.id] can be read.  Either both reads succeed, and exactly one
    dialog (resp. one remote delete) is logged and one callback registered,
    or the handler throws and the state is exactly as before: no dialog, no
    delete, no callback. *)
Theorem deleteTicket_all_or_nothing (props : JsValue) (st : State) :
  ((∃ row id,
      read_prop (heap st) props "row" = Normal row ∧
      read_prop (heap st) row "id" = Normal id ∧
      deleteTicket props st
      = (Normal tt,
         set_conts (conts st ++ [(length (log st), KDialogOk props)])
           (set_log (log st ++ [EDialog id]) st))) ∨
   (∃ e, deleteTicket props st = (Throw e, st))) ∧
  ((∃ row id,
      read_prop (heap st) props "row" = Normal row ∧
      read_prop (heap st) row "id" = Normal id ∧
      deleteTicket_onOk props st
      = (Normal tt,
         set_conts (conts st ++ [(length (log st), KDeleteThen)])
           (set_log (log st ++ [EDelete id]) st))) ∨
   (∃ e, deleteTicket_onOk props st = (Throw e, st))).
Proof. split; [apply deleteTicket_cases | apply deleteTicket_onOk_cases]. Qed.

Lemma searchable_record_object (h : list HeapObj) (d : JsValue) :
  searchable_record h d → is_object h d.
Proof.
  intros [[s Hs] _]. unfold string_field in Hs.
  destruct d as [| | | | | |l]; cbn in Hs; try done.
  destruct (h !! l) as [[ps|els]|] eqn:Hl; try done. by exists l, ps.
Qed.

Lemma string_field_field (h : list HeapObj) (d : JsValue) (k s : string) :
  string_field h d k = Some s → field h d k = VStr s.
Proof.
  unfold string_field, field. destruct (read_prop h d k) as [[| | | | |s'|]|]; try done.
  by intros [= ->].
Qed.

(** X4: the search runs on what the loader mapped.  After a load of records
    whose [subject] and [description_text] are strings, [filterData] on the
    new row list returns for every query, and keeps the row of a record
    exactly when the lowered query occurs in the record's lowered [subject]
    or lowered [description_text]. *)
Theorem filter_after_load (p dismiss : nat) (res d : JsValue) (arr : nat)
    (records : list JsValue) (st : State) (q : string) :
  find_cont p (conts st) = Some (KListThen dismiss) →
  read_prop (heap st) res "data" = Normal d →
  read_prop (heap st) d "data" = Normal (VRef arr) →
  heap st !! arr = Some (HArray records) →
  Forall (searchable_record (heap st)) records →
  let st' := step st (EvSettle p (Fulfilled res)) in
  ∃ t rows kept,
    tickets st' = VRef t ∧
    heap st' !! t = Some (HArray rows) ∧
    length rows = length records ∧
    filterData (VRef t) q st'
    = (Normal (VRef (length (heap st'))), set_heap (heap st' ++ [HArray kept]) st') ∧
    ∀ i data row s ds,
      records !! i = Some data → rows !! i = Some row →
      string_field (heap st) data "subject" = Some s →
      string_field (heap st) data "description_text" = Some ds →
      (row ∈ kept ↔
       substring (toLowerCase q) (toLowerCase s) ∨ substring (toLowerCase q) (toLowerCase ds)).
Proof.
  intros Hp Hres Hd Harr Hall st'.
  assert (Hobj : Forall (is_object (heap st)) records).
  { eapply Forall_impl; [done | apply searchable_record_object]. }
  set (n := length records).
  set (cells := imap (λ i r, HObject (row_literal (heap st) (1 + Z.of_nat i) r)) records).
  set (rows := VRef <$> seq (length (heap st)) n).
  assert (Hcells : length cells = n) by apply length_imap.
  assert (Hst' : st' = set_log (log st ++ [EDismiss dismiss])
                         (set_tickets (VRef (length (heap st) + n))
                            (set_heap (heap st ++ cells ++ [HArray rows])
                               (set_conts (remove_cont p (conts st)) st)))).
  { subst st'. unfold step. cbn [handle_event]. rewrite (settle_found p _ _ st Hp).
    cbn [run_cont].
    by rewrite (getTickets_then_spec dismiss res d arr records
                  (set_conts (remove_cont p (conts st)) st) Hres Hd Harr Hobj). }
  assert (Hrows : heap st' !! (length (heap st) + n) = Some (HArray rows)).
  { rewrite Hst'. cbn [heap set_heap set_log set_tickets]. rewrite app_assoc.
    apply list_lookup_middle. by rewrite length_app, Hcells. }
  assert (Hrow : ∀ i data, records !! i = Some data →
            rows !! i = Some (VRef (length (heap st) + i)) ∧
            heap st' !! (length (heap st) + i)
            = Some (HObject (row_literal (heap st) (1 + Z.of_nat i) data))).
  { intros i data Hi. pose proof (lookup_lt_Some _ _ _ Hi) as Hlt. split.
    - subst rows. by rewrite list_lookup_fmap, lookup_seq_lt.
    - rewrite Hst'. cbn [heap set_heap set_log set_tickets].
      rewrite lookup_app_r by lia.
      replace (length (heap st) + i - length (heap st)) with i by lia.
      rewrite lookup_app_l by (by rewrite Hcells).
      subst cells. by rewrite list_lookup_imap, Hi. }
  assert (Hfields : ∀ i data s ds, records !! i = Some data →
            string_field (heap st) data "subject" = Some s →
            string_field (heap st) data "description_text" = Some ds →
            string_field (heap st') (VRef (length (heap st) + i)) "subject" = Some s ∧
            string_field (heap st') (VRef (length (heap st) + i)) "description" = Some ds).
  { intros i data s ds Hi Hs Hds. destruct (Hrow i data Hi) as [_ Hcell].
    unfold string_field. cbn [read_prop]. rewrite Hcell. cbn.
    by rewrite (string_field_field _ _ _ _ Hs), (string_field_field _ _ _ _ Hds). }
  assert (Hwf : Forall (has_string_fields (heap st')) rows).
  { apply Forall_forall. intros row Hin. apply list_elem_of_lookup in Hin as [i Hi].
    subst rows. apply list_lookup_fmap_Some in Hi as (j & -> & Hj).
    apply lookup_seq in Hj as [-> Hlt].
    destruct (lookup_lt_is_Some_2 records i Hlt) as [data Hdata].
    rewrite Forall_forall in Hall.
    destruct (Hall data (list_elem_of_lookup_2 _ _ _ Hdata)) as [[s Hs] [ds Hds]].
    destruct (Hfields i data s ds Hdata Hs Hds) as [H1 H2].
    split; eexists; done. }
  exists (length (heap st) + n), rows, (filter (λ r, row_matches (heap st') q r = true) rows).
  split; [by rewrite Hst' |]. split; [done |].
  split; [subst rows; by rewrite length_fmap, length_seq |].
  split; [by apply filterData_string_fields |].
  intros i data row s ds Hi Hri Hs Hds.
  destruct (Hrow i data Hi) as [Hri' _]. rewrite Hri' in Hri. injection Hri as <-.
  destruct (Hfields i data s ds Hi Hs Hds) as [H1 H2].
  rewrite list_elem_of_filter, (row_matches_spec _ q _ s ds H1 H2).
  split; [tauto |]. intros H. split; [done |].
  by apply (list_elem_of_lookup_2 _ i).
Qed.

End HandlerOutcomes.

Lemma filterData_narrows_witness :
  ∃ kept1 kept2,
    filterData (VRef 3) "log" sample_state
    = (Normal (VRef (length (heap sample_state))),
       set_heap (heap sample_state ++ [HArray kept1]) sample_state) ∧
    filterData (VRef 3) "LOGIN" sample_state
    = (Normal (VRef (length (heap sample_state))),
       set_heap (heap sample_state ++ [HArray kept2]) sample_state) ∧
    sublist kept2 kept1.
Proof.
  apply (filterData_narrows sample_state 3 [VRef 0; VRef 1; VRef 2] "log" "LOGIN").
  - reflexivity.
  - exact sample_rows_string_fields.
  - by exists "", "in".
Defined.

Lemma filterData_twice_witness :
  let rows := [VRef 0; VRef 1; VRef 2] in
  let both :=
    filter (λ r, row_matches (heap sample_state) "o" r = true ∧
                 row_matches (heap sample_state) "in" r = true) rows in
  ∃ kept1 kept2,
    let st1 := snd (filterData (VRef 3) "o" sample_state) in
    let st2 := snd (filterData (VRef 3) "in" sample_state) in
    fst (filterData (VRef 3) "o" sample_state) = Normal (VRef (length (heap sample_state))) ∧
    heap st1 = heap sample_state ++ [HArray kept1] ∧
    filterData (VRef (length (heap sample_state))) "in" st1
    = (Normal (VRef (S (length (heap sample_state)))),
       set_heap (heap st1 ++ [HArray both]) st1) ∧
    fst (filterData (VRef 3) "in" sample_state) = Normal (VRef (length (heap sample_state))) ∧
    heap st2 = heap sample_state ++ [HArray kept2] ∧
    filterData (VRef (length (heap sample_state))) "o" st2
    = (Normal (VRef (S (length (heap sample_state)))),
       set_heap (heap st2 ++ [HArray both]) st2).
Proof.
  apply (filterData_twice sample_state 3 [VRef 0; VRef 1; VRef 2] "o" "in").
  - reflexivity.
  - exact sample_rows_string_fields.
Defined.

Lemma filter_after_load_witness :
  let st' := step worked_state (EvSettle 1 (Fulfilled (VRef 6))) in
  ∃ t rows kept,
    tickets st' = VRef t ∧
    heap st' !! t = Some (HArray rows) ∧
    length rows = length [VRef 3] ∧
    filterData (VRef t) "LOGIN" st'
    = (Normal (VRef (length (heap st'))), set_heap (heap st' ++ [HArray kept]) st') ∧
    ∀ i data row s ds,
      [VRef 3] !! i = Some data → rows !! i = Some row →
      string_field (heap worked_state) data "subject" = Some s →
      string_field (heap worked_state) data "description_text" = Some ds →
      (row ∈ kept ↔
       substring (toLowerCase "LOGIN") (toLowerCase s) ∨
       substring (toLowerCase "LOGIN") (toLowerCase ds)).
Proof.
  apply (filter_after_load 1 0 (VRef 6) (VRef 5) 4 [VRef 3] worked_state "LOGIN").
  - reflexivity.
  - reflexivity.
  - reflexivity.
  - reflexivity.
  - repeat constructor; by eexists.
Defined.

Lemma sample_state_closed : closed (heap sample_state).
Proof. repeat (constructor; cbn). Defined.

Lemma create_state_closed : closed (heap create_state).
Proof. repeat (constructor; cbn). Defined.

Lemma filterData_only_adds_result_witness :
  ∃ acc,
    snd (filterData (VStr "ab") "a" sample_state)
    = set_heap (heap sample_state ++ [HArray acc]) sample_state ∧
    sublist acc (visited (heap sample_state) (VStr "ab")) ∧
    (fst (filterData (VStr "ab") "a" sample_state) = Normal (VRef (length (heap sample_state))) ∨
     fst (filterData (VStr "ab") "a" sample_state) = Throw TypeError).
Proof.
  apply (filterData_only_adds_result (VStr "ab") "a" sample_state).
  - exact sample_state_closed.
  - exact I.
  - exact I.
Defined.

(** [filterData] on values that are not arrays: the empty string, a number
    and an object without a length have nothing to visit, and the call
    returns an empty array; a string that is not empty is visited character
    by character, and the first character has no subject, so the call
    throws; an object with a length and indices is visited like an array. *)
Example filterData_not_an_array :
  let empty := set_heap (heap sample_state ++ [HArray []]) sample_state in
  filterData (VStr "") "x" sample_state = (Normal (VRef 4), empty) ∧
  filterData (VNum 5) "x" sample_state = (Normal (VRef 4), empty) ∧
  filterData (VBool true) "x" sample_state = (Normal (VRef 4), empty) ∧
  filterData (VStr "ab") "x" sample_state = (Throw TypeError, empty) ∧
  fst (filterData VUndefined "x" sample_state) = Throw TypeError ∧
  (let st := set_heap (heap sample_state ++ [HObject []]) sample_state in
   filterData (VRef 4) "x" st = (Normal (VRef 5), set_heap (heap st ++ [HArray []]) st)) ∧
  (let st := set_heap (heap sample_state
                         ++ [HObject [("length", VNum 2); ("0", VRef 2); ("1", VRef 0)]])
               sample_state in
   filterData (VRef 4) "LOGIN" st
   = (Normal (VRef 5), set_heap (heap st ++ [HArray [VRef 0]]) st)).
Proof. repeat split; reflexivity. Qed.

Lemma updateTicketList_closes_dialog_first_witness :
  let st := set_tickets (VStr "ab") create_state in
  let o := fst (updateTicketList (VRef 5) st) in
  let st' := snd (updateTicketList (VRef 5) st) in
  showaddTicketDialog st' = false ∧
  (∃ x, heap st' = heap st ++ x) ∧
  ticket st' = ticket st ∧
  showUpdateTicketDialog st' = showUpdateTicketDialog st ∧
  conts st' = conts st ∧
  ((o = Normal tt ∧ log st' = log st ++ [added_notice] ∧
    ∃ t' old row,
      elements (heap st) (tickets st) = Some old ∧
      tickets st' = VRef t' ∧ heap st' !! t' = Some (HArray (old ++ [row])) ∧
      heap st !! t' = None ∧
      read_prop (heap st') row "#" = Normal (VNum (Z.of_nat (length old) + 1))) ∨
   (o = Throw TypeError ∧ log st' = log st ∧ tickets st' = tickets st)).
Proof.
  apply (updateTicketList_closes_dialog_first (VRef 5) (set_tickets (VStr "ab") create_state)).
  - exact create_state_closed.
  - cbn. lia.
  - exact I.
  - exact I.
Defined.

(** [updateTicketList] on a row list that is not an array.  A string is
    spread into its characters and the call completes, the new row numbered
    after the length of the string.  A number has no length and cannot be
    spread: the row is built with NaN for its number, then the call throws
    and the row list stays. *)
Example updateTicketList_not_an_array :
  (let st := set_tickets (VStr "ab") create_state in
   let st' := snd (updateTicketList (VRef 5) st) in
   fst (updateTicketList (VRef 5) st) = Normal tt ∧
   tickets st' = VRef 9 ∧
   heap st' !! 9 = Some (HArray [VStr "a"; VStr "b"; VRef 7]) ∧
   read_prop (heap st') (VRef 7) "#" = Normal (VNum 3) ∧
   log st' = [added_notice]) ∧
  (let st := set_tickets (VNum 5) create_state in
   let st' := snd (updateTicketList (VRef 5) st) in
   fst (updateTicketList (VRef 5) st) = Throw TypeError ∧
   tickets st' = VNum 5 ∧
   read_prop (heap st') (VRef 7) "#" = Normal VNaN ∧
   showaddTicketDialog st' = false ∧
   log st' = []).
Proof. repeat split; reflexivity. Qed.
